(** * tools/licenses.py: aggregation of third-party license files

    A shallow embedding of [tools/licenses.py] and of the part of the
    Python runtime it touches: a file system of directories, files and
    symbolic links, [os.path.exists], [os.path.isdir], [os.listdir],
    [os.walk], [open(...).read()] and [open(..., 'w').write(...)]; and of
    the environment that [go/build_http_proxy.py] prepares.

    Conventions of the embedding.
    - A Python [str] is a [string]; one character of the model stands for
      one character of the Python string, so [len] is [String.length] and
      the order of [sorted] is the lexicographic order of [String.compare].
    - The contents of a file are its bytes, one character for each.  The
      files are read and written as text in the encoding of the locale,
      taken to agree with ASCII below 128 and to accept nothing from 128
      up: a file holding such a byte does not decode and the read raises
      [UnicodeDecodeError].  In a name or a text of the program a
      character from 128 up stands for one that does not encode (a name
      that [os.listdir] could not decode), and the write raises
      [UnicodeEncodeError].
    - A file read as text has its line endings translated: a carriage
      return, alone or followed by a line feed, is read as a line feed.
      The host is a POSIX one: a text is written as it is.
    - A path is the list of its components below the file-system root;
      [os.path.join p name] is [join p name], the path [p] extended by
      [name] (the names joined by the program are directory entries and
      the constants of [SPECIAL_CASES], none of which contains a
      separator).
    - A directory is the list of its entries in the order in which the
      operating system enumerates them; this order is what [os.listdir]
      and [os.walk] observe.
    - A symbolic link carries what it leads to, or leads to nothing.
      Paths are resolved through links; [os.walk] names a link to a
      directory among the subdirectories and does not walk it.  What a
      link leads to is taken to lie outside the tree: no link leads back
      into a directory the run lists or to the output file.
    - A raised exception is an explicit [Raise] result.
    - A run is [main] applied to a file system and a command line; it
      yields how the run ended, the calls of [FindLicense] and the opening
      of the output file in the order they happened, and the file system
      the run leaves behind.  Opening the output file for writing creates
      or empties it before anything is written. *)

From Stdlib Require Import String Ascii List Bool Arith NArith Lia.
From Stdlib Require Import Sorted Permutation.
Import ListNotations.
Local Open Scope list_scope.
Local Open Scope string_scope.

(** ** The file system *)

Module Os.

(** What a directory entry can be for this program: a regular file, a
    directory, a symbolic link to something that exists (held with the
    link, as it lies outside the tree), or a symbolic link to nothing.
    A link to a file is, for every operation below, the file. *)
#[local] Unset Elimination Schemes.
Inductive node : Type :=
| File (contents : string)
| Dir (entries : list (string * node))
| Link (target : node)
| Dangling.
#[local] Set Elimination Schemes.

Definition path := list string.

(** [os.path.join p name] *)
Definition join (p : path) (name : string) : path := (p ++ [name])%list.

Inductive errno := ENOENT | ENOTDIR | EISDIR.

(** Exceptions the program can raise: an [OSError] of the runtime with the
    path it complains about, the errors of decoding a file read as text
    and of encoding a text written, or the [Exception(msg)] of [main]. *)
Inductive exn :=
| OSError (e : errno) (p : path)
| Exception (msg : string)
| UnicodeDecodeError (p : path)
| UnicodeEncodeError (p : path).

Inductive result (A : Type) :=
| Ok (a : A)
| Raise (e : exn).
Arguments Ok {A} a.
Arguments Raise {A} e.

Definition bind {A B} (r : result A) (k : A -> result B) : result B :=
  match r with
  | Ok a => k a
  | Raise e => Raise e
  end.

Fixpoint assoc {A} (k : string) (l : list (string * A)) : option A :=
  match l with
  | [] => None
  | (k', v) :: l' => if String.eqb k k' then Some v else assoc k l'
  end.

Fixpoint update {A} (k : string) (v : A) (l : list (string * A))
  : list (string * A) :=
  match l with
  | [] => []
  | (k', v') :: l' =>
      if String.eqb k k' then (k', v) :: l' else (k', v') :: update k v l'
  end.

(** What a chain of links leads to, if anything. *)
Fixpoint deref (n : node) : option node :=
  match n with
  | Link t => deref t
  | Dangling => None
  | File _ | Dir _ => Some n
  end.

(** The chain of links of [n], now leading to [m]. *)
Fixpoint retarget (n m : node) : node :=
  match n with
  | Link t => Link (retarget t m)
  | Dangling => Link m
  | File _ | Dir _ => m
  end.

(** Path resolution from the root [n], following links: the result is a
    file or a directory. *)
Fixpoint resolve (n : node) (p : path) {struct p} : errno + node :=
  match deref n with
  | None => inl ENOENT
  | Some m =>
      match p with
      | [] => inr m
      | x :: p' =>
          match m with
          | Dir es =>
              match assoc x es with
              | Some c => resolve c p'
              | None => inl ENOENT
              end
          | _ => inl ENOTDIR
          end
      end
  end.

(** [os.path.exists] and [os.path.isdir]. *)
Definition exists_ (fs : node) (p : path) : bool :=
  match resolve fs p with inr _ => true | inl _ => false end.

Definition isdir (fs : node) (p : path) : bool :=
  match resolve fs p with inr (Dir _) => true | _ => false end.

(** [os.listdir]: the entry names, in enumeration order. *)
Definition listdir (fs : node) (p : path) : result (list string) :=
  match resolve fs p with
  | inr (Dir es) => Ok (map fst es)
  | inr _ => Raise (OSError ENOTDIR p)
  | inl e => Raise (OSError e p)
  end.

(** A character below 128. *)
Definition is_ascii (c : ascii) : bool :=
  match c with Ascii _ _ _ _ _ _ _ b7 => negb b7 end.

(** Bytes that decode, a text that encodes: no character from 128 up. *)
Fixpoint ascii_only (s : string) : bool :=
  match s with
  | EmptyString => true
  | String c s' => is_ascii c && ascii_only s'
  end.

Definition CR : ascii := "013"%char.
Definition LF : ascii := "010"%char.

(** The newline translation of a file read as text: a carriage return,
    with the line feed that follows it if one does, becomes one line
    feed. *)
Fixpoint universal_newlines (s : string) : string :=
  match s with
  | EmptyString => EmptyString
  | String c s' =>
      if Ascii.eqb c CR
      then String LF
             match s' with
             | String c' s'' =>
                 if Ascii.eqb c' LF then universal_newlines s''
                 else universal_newlines s'
             | EmptyString => EmptyString
             end
      else String c (universal_newlines s')
  end.

(** [open(p).read()], the file read as text. *)
Definition read (fs : node) (p : path) : result string :=
  match resolve fs p with
  | inr (File c) =>
      if ascii_only c then Ok (universal_newlines c)
      else Raise (UnicodeDecodeError p)
  | inr _ => Raise (OSError EISDIR p)
  | inl e => Raise (OSError e p)
  end.

(** The file at [p] opened for writing and holding [c] afterwards: it is
    created in an existing directory, or truncated and rewritten, through
    the links on the way; nothing else changes. *)
Fixpoint store (n : node) (p : path) (c : string) {struct p} : errno + node :=
  match p with
  | [] =>
      match deref n with
      | Some (Dir _) => inl EISDIR
      | _ => inr (retarget n (File c))
      end
  | x :: p' =>
      match deref n with
      | None => inl ENOENT
      | Some (Dir es) =>
          match assoc x es with
          | Some child =>
              match store child p' c with
              | inr child' => inr (retarget n (Dir (update x child' es)))
              | inl e => inl e
              end
          | None =>
              match p' with
              | [] => inr (retarget n (Dir (es ++ [(x, File c)])%list))
              | _ :: _ => inl ENOENT
              end
          end
      | Some _ => inl ENOTDIR
      end
  end.

(** How [with open(p, 'w') as f: f.write(c)] can fail: the file cannot
    be opened, and nothing has changed; or it has been opened, and so
    created or truncated, and the text does not encode. *)
Inductive write_error :=
| OpenFailed (e : errno)
| EncodeFailed (truncated : node).

(** [with open(p, 'w') as f: f.write(c)] *)
Definition write (n : node) (p : path) (c : string) : write_error + node :=
  match store n p "" with
  | inl e => inl (OpenFailed e)
  | inr truncated =>
      if ascii_only c
      then match store n p c with
           | inr n' => inr n'
           | inl e => inl (OpenFailed e)
           end
      else inl (EncodeFailed truncated)
  end.

(** [entry.is_dir()], which follows links. *)
Definition is_dir_node (n : node) : bool :=
  match deref n with Some (Dir _) => true | _ => false end.

Definition dirnames (es : list (string * node)) : list string :=
  map fst (filter (fun e => is_dir_node (snd e)) es).

Definition filenames (es : list (string * node)) : list string :=
  map fst (filter (fun e => negb (is_dir_node (snd e))) es).

(** [os.walk(top)] below a directory, top-down: the triple of the
    directory itself, then the walks of its subdirectories in enumeration
    order.  A link to a directory is named among the directories and is
    not walked. *)
Fixpoint walk_node (top : path) (n : node) {struct n}
  : list (path * list string * list string) :=
  match n with
  | Dir es =>
      (top, dirnames es, filenames es)
        :: flat_map (fun e => walk_node (join top (fst e)) (snd e)) es
  | File _ | Link _ | Dangling => []
  end.

(** The entries of the directory reached from the directory [n] along
    [q] through directories proper, with no link on the way: the
    directories [os.walk] gets to. *)
Fixpoint descend (n : node) (q : path) {struct q}
  : option (list (string * node)) :=
  match n with
  | Dir es =>
      match q with
      | [] => Some es
      | x :: q' =>
          match assoc x es with
          | Some child => descend child q'
          | None => None
          end
      end
  | File _ | Link _ | Dangling => None
  end.

(** A [top] that is missing or not a directory yields nothing: [os.walk]
    ignores the error of its first [scandir].  The [top] itself may be a
    link. *)
Definition walk (fs : node) (top : path)
  : list (path * list string * list string) :=
  match resolve fs top with
  | inr n => walk_node top n
  | inl _ => []
  end.

(** No directory lists a name twice. *)
Fixpoint distinct (l : list string) : bool :=
  match l with
  | [] => true
  | x :: l' => negb (existsb (String.eqb x) l') && distinct l'
  end.

Fixpoint wf (n : node) : bool :=
  match n with
  | File _ | Dangling => true
  | Dir es => distinct (map fst es) && forallb (fun e => wf (snd e)) es
  | Link t => wf t
  end.

(** [sorted] on a list of strings. *)
Fixpoint insert (x : string) (l : list string) : list string :=
  match l with
  | [] => [x]
  | y :: l' => if String.leb x y then x :: l else y :: insert x l'
  end.

Fixpoint sorted (l : list string) : list string :=
  match l with
  | [] => []
  | x :: l' => insert x (sorted l')
  end.

(** Ascending order, as [sorted] establishes it. *)
Definition le (x y : string) : Prop := String.leb x y = true.

(** Induction on a tree, with the hypothesis for every entry of a
    directory and for the target of a link. *)
Fixpoint node_ind' (P : node -> Prop)
  (HF : forall c, P (File c))
  (HD : forall es, Forall (fun e => P (snd e)) es -> P (Dir es))
  (HL : forall t, P t -> P (Link t))
  (HG : P Dangling)
  (n : node) {struct n} : P n :=
  match n with
  | File c => HF c
  | Dir es =>
      HD es
        ((fix go (l : list (string * node)) : Forall (fun e => P (snd e)) l :=
            match l with
            | [] => Forall_nil _
            | e :: l' =>
                Forall_cons e (node_ind' P HF HD HL HG (snd e)) (go l')
            end) es)
  | Link t => HL t (node_ind' P HF HD HL HG t)
  | Dangling => HG
  end.

End Os.

(** ** tools/licenses.py *)

Module Licenses.
Import Os.

Notation "x <- c1 ;; c2" := (bind c1 (fun x => c2))
  (at level 61, c1 at next level, right associativity).

(** Skip these directories in third_party. *)
Definition PRUNE_DIRS : list string :=
  ["chromium_build"; "config"; "llvm-build"; "ninja"].

(** These libraries do not have LICENSE in the directory: the value is the
    ['path'] field of the library's entry. *)
Definition SPECIAL_CASES : list (string * string) :=
  [("lss", "LICENSE.lss"); ("zlib", "LICENSE.zlib")].

Definition LICENSE_NAMES : list string :=
  ["LICENSE"; "LICENSE.md"; "LICENSE.rst"; "COPYING"; "COPYING.txt"].

(** [name in l] on lists of strings. *)
Definition mem (name : string) (l : list string) : bool :=
  existsb (String.eqb name) l.

Definition ReadFile (fs : node) (p : path) : result string :=
  read fs p.

Definition IsLicenseFile (name : string) : bool :=
  mem name LICENSE_NAMES.

(** The inner loop of [FindLicense], over the files of one directory:
    [Some r] when a [return] is reached. *)
Fixpoint find_in_files (fs : node) (curdir : path) (files : list string)
  : option (result string) :=
  match files with
  | [] => None
  | f :: files' =>
      if IsLicenseFile f then Some (ReadFile fs (join curdir f))
      else find_in_files fs curdir files'
  end.

(** The outer loop, over the triples of [os.walk]. *)
Fixpoint find_in_walk (fs : node)
  (triples : list (path * list string * list string))
  : result (option string) :=
  match triples with
  | [] => Ok None
  | (curdir, _, files) :: triples' =>
      match find_in_files fs curdir files with
      | Some r => c <- r ;; Ok (Some c)
      | None => find_in_walk fs triples'
      end
  end.

Definition FindLicense (fs : node) (third_party_dir : path)
  (library_name : string) : result (option string) :=
  match assoc library_name SPECIAL_CASES with
  | Some rel => c <- ReadFile fs (join third_party_dir rel) ;; Ok (Some c)
  | None => find_in_walk fs (walk fs (join third_party_dir library_name))
  end.


(** ['=' * n] *)
Fixpoint equals (n : nat) : string :=
  match n with
  | O => ""
  | S n' => String "=" (equals n')
  end.

Definition nl : string := String "010"%char "".

Definition AddLicenseFile (license_data name contents : string) : string :=
  let license_data :=
    if String.eqb license_data "" then license_data
    else license_data ++ nl ++ nl in
  let license_data := license_data ++ (name ++ nl) in
  let license_data := license_data ++ (equals (String.length name) ++ nl) in
  license_data ++ contents.

(** The command line. *)
Record args := {
  goma_license : path;
  third_party_dir : path;
  output_file : path
}.

(** What is observed of a run: the calls of [FindLicense] with what they
    returned, and the opening of the output file for writing. *)
Inductive event :=
| EvFindLicense (d : string) (r : result (option string))
| EvOpenWrite (p : path).

(** [not license_data] *)
Definition falsy (x : option string) : bool :=
  match x with
  | None => true
  | Some s => String.eqb s ""
  end.

Definition not_found_msg (d : string) : string :=
  "license file not found in " ++ d.

(** The three [continue] tests of the loop of [main], negated. *)
Definition eligible (fs : node) (tp : path) (d : string) : bool :=
  isdir fs (join tp d)
    && negb (String.prefix "_gclient_" d)
    && negb (mem d PRUNE_DIRS).

(** The loop of [main] over [sorted(os.listdir(third_party_dir))],
    from the accumulated [result]. *)
Fixpoint loop (fs : node) (tp : path) (ds : list string) (result_ : string)
  : list event * result string :=
  match ds with
  | [] => ([], Ok result_)
  | d :: ds' =>
      if negb (isdir fs (join tp d)) then loop fs tp ds' result_
      else if String.prefix "_gclient_" d then loop fs tp ds' result_
      else if mem d PRUNE_DIRS then loop fs tp ds' result_
      else
        let r := FindLicense fs tp d in
        match r with
        | Raise e => ([EvFindLicense d r], Raise e)
        | Ok license_data =>
            if falsy license_data
            then ([EvFindLicense d r], Raise (Exception (not_found_msg d)))
            else
              let contents :=
                match license_data with Some c => c | None => "" end in
              let '(evs, res) :=
                loop fs tp ds' (AddLicenseFile result_ d contents) in
              (EvFindLicense d r :: evs, res)
        end
  end.

(** A finished run: how it ended, what it did, the file system it left. *)
Record run := {
  outcome : result unit;
  events : list event;
  fs_after : node
}.

Definition GOMA_TITLE : string := "Goma Client".

(** Lines 85-87: the project's own license. *)
Definition primary (fs : node) (a : args) : result string :=
  if exists_ fs (goma_license a)
  then c <- ReadFile fs (goma_license a) ;; Ok (AddLicenseFile "" GOMA_TITLE c)
  else Ok "".

Definition main (fs : node) (a : args) : run :=
  match primary fs a with
  | Raise e => {| outcome := Raise e; events := []; fs_after := fs |}
  | Ok result0 =>
      match listdir fs (third_party_dir a) with
      | Raise e => {| outcome := Raise e; events := []; fs_after := fs |}
      | Ok names =>
          match loop fs (third_party_dir a) (sorted names) result0 with
          | (evs, Raise e) =>
              {| outcome := Raise e; events := evs; fs_after := fs |}
          | (evs, Ok result_) =>
              let evs' := (evs ++ [EvOpenWrite (output_file a)])%list in
              match write fs (output_file a) result_ with
              | inl (OpenFailed e) =>
                  {| outcome := Raise (OSError e (output_file a));
                     events := evs'; fs_after := fs |}
              | inl (EncodeFailed truncated) =>
                  {| outcome := Raise (UnicodeEncodeError (output_file a));
                     events := evs'; fs_after := truncated |}
              | inr fs' =>
                  {| outcome := Ok tt; events := evs'; fs_after := fs' |}
              end
          end
      end
  end.

(** [sys.exit(main())]: [main] returns [None], an uncaught exception
    ends the interpreter with status 1. *)
Definition exit_status (r : run) : nat :=
  match outcome r with
  | Ok _ => 0
  | Raise _ => 1
  end.

(** The Directory Scanner of the design: the names for which the loop of
    [main] reaches [FindLicense], in the order of the loop. *)
Definition Scanner (fs : node) (tp : path) : result (list string) :=
  names <- listdir fs tp ;; Ok (filter (eligible fs tp) (sorted names)).

End Licenses.

(** ** The vocabulary of the design *)

Module Design.
Import Os Licenses.

(** A license block: its title and its body. *)
Definition block := (string * string)%type.

(** One block as [AddLicenseFile] lays it out: the title line, the line
    of ['='], the body. *)
Definition render_block (b : block) : string :=
  fst b ++ nl ++ equals (String.length (fst b)) ++ nl ++ snd b.

(** The separator [AddLicenseFile] puts between two blocks. *)
Definition separator : string := nl ++ nl.

Definition render_doc (bs : list block) : string :=
  String.concat separator (map render_block bs).

(** The layout of a block in the words of the format description: a blank
    line between the line of ['='] and the body. *)
Definition described_block (b : block) : string :=
  fst b ++ nl ++ equals (String.length (fst b)) ++ nl ++ nl ++ snd b.

Definition described_doc (bs : list block) : string :=
  String.concat separator (map described_block bs).

Definition add_block (acc : string) (b : block) : string :=
  AddLicenseFile acc (fst b) (snd b).

(** The resolver found a text for the title of [b], the body of [b], and
    [main] accepts it. *)
Definition resolved (fs : node) (tp : path) (b : block) : Prop :=
  FindLicense fs tp (fst b) = Ok (Some (snd b)) /\ snd b <> "".

Definition ok_event (b : block) : event :=
  EvFindLicense (fst b) (Ok (Some (snd b))).

(** The dependencies [FindLicense] was called on, in the order of the
    calls. *)
Definition processed (evs : list event) : list string :=
  flat_map (fun ev =>
              match ev with
              | EvFindLicense d _ => [d]
              | EvOpenWrite _ => []
              end) evs.

(** A name the scan lets through: not in the prune set and without the
    prefix of the temporary directories of gclient. *)
Definition kept (d : string) : bool :=
  negb (mem d PRUNE_DIRS) && negb (String.prefix "_gclient_" d).

(** The block of the project itself, when its license file is there. *)
Definition primary_blocks (fs : node) (a : args) : list block :=
  match ReadFile fs (goma_license a) with
  | Ok c => [(GOMA_TITLE, c)]
  | Raise _ => []
  end.

End Design.

(** ** Paths that part ways, and file systems that agree below a path *)

Module Frame.
Import Os.

(** [p] and [q] differ at some component they both have: neither leads
    into the other. *)
Fixpoint diverge (p q : path) : bool :=
  match p, q with
  | x :: p', y :: q' => if String.eqb x y then diverge p' q' else true
  | _, _ => false
  end.

(** The text of the file at [q], when there is a file. *)
Definition file_at (n : node) (q : path) : option string :=
  match resolve n q with inr (File c) => Some c | _ => None end.

(** [fs'] holds below [top] what [fs] holds there. *)
Definition agree_under (fs fs' : node) (top : path) : Prop :=
  forall q, resolve fs' (top ++ q)%list = resolve fs (top ++ q)%list.

End Frame.

(** ** go/build_http_proxy.py *)

Module BuildHttpProxy.
Import Os.

(** A [dict] of strings, such as [os.environ.copy()]: the items in
    insertion order, no key twice. *)
Definition dict := list (string * string).

(** [d.get(k)] *)
Definition get (k : string) (d : dict) : option string := assoc k d.

(** [d.pop(k, None)] *)
Definition pop (k : string) (d : dict) : dict :=
  filter (fun kv => negb (String.eqb k (fst kv))) d.

(** [d[k] = v]: in place when the key is there, at the end when not. *)
Definition set (k v : string) (d : dict) : dict :=
  match assoc k d with
  | Some _ => update k v d
  | None => (d ++ [(k, v)])%list
  end.

(** The parsed command line. *)
Record args := {
  output : string;
  cache_dir : string;
  goarch : string
}.

(** The loop over [('GOROOT', 'GOPATH')] and the three assignments. *)
Definition build_env (environ : dict) (a : args) : dict :=
  let env := environ in
  let env := fold_left (fun env key => pop key env) ["GOROOT"; "GOPATH"] env in
  let env := set "CGO_ENABLED" "0" env in
  let env := set "GOCACHE" (cache_dir a) env in
  set "GOARCH" (goarch a) env.

End BuildHttpProxy.

(** ** Sample trees and command lines *)

Module Samples.
Import Os Licenses Design.

(** The first scenario of the design document, with a few entries more
    that the scan has to skip. *)
Definition fs_demo : node :=
  Dir [("LICENSE", File "Proprietary");
       ("third_party",
        Dir [("lss", Dir [("linux_syscall_support.h", File "code");
                          ("LICENSE", File "not this one")]);
             ("ninja", Dir [("COPYING", File "Apache")]);
             ("LICENSE.lss", File "BSD");
             ("_gclient_tmp", Dir []);
             ("README", File "read me");
             ("libA", Dir [("src", Dir [("COPYING", File "inner")]);
                           ("notes.txt", File "notes");
                           ("LICENSE", File "MIT")])])].

Definition a_demo : args :=
  {| goma_license := ["LICENSE"];
     third_party_dir := ["third_party"];
     output_file := ["out.txt"] |}.

Definition blocks_demo : list block :=
  [("Goma Client", "Proprietary"); ("libA", "MIT"); ("lss", "BSD")].

(** The second scenario: [libB] has no license file; an output file of
    an earlier run is there. *)
Definition fs_unresolved : node :=
  Dir [("LICENSE", File "Proprietary");
       ("out.txt", File "earlier output");
       ("third_party",
        Dir [("libC", Dir [("LICENSE", File "ISC")]);
             ("libB", Dir [("README.md", File "no license here")]);
             ("libA", Dir [("LICENSE", File "MIT")])])].

(** [libB] has a license file, and the file is empty. *)
Definition fs_empty_text : node :=
  Dir [("LICENSE", File "Proprietary");
       ("out.txt", File "earlier output");
       ("third_party",
        Dir [("libC", Dir [("LICENSE", File "ISC")]);
             ("libB", Dir [("LICENSE", File "")]);
             ("libA", Dir [("LICENSE", File "MIT")])])].

(** [zlib] is there, with a file named LICENSE inside, and the file its
    override names is not. *)
Definition fs_no_override : node :=
  Dir [("LICENSE", File "Proprietary");
       ("out.txt", File "earlier output");
       ("third_party",
        Dir [("zlib", Dir [("LICENSE", File "zlib license")]);
             ("libA", Dir [("LICENSE", File "MIT")])])].

(** No license file of the project itself. *)
Definition fs_no_primary : node :=
  Dir [("third_party", Dir [("libA", Dir [("LICENSE", File "MIT")])])].

(** The license path of the project names a directory. *)
Definition fs_primary_dir : node :=
  Dir [("LICENSE", Dir []);
       ("third_party", Dir [("libA", Dir [("LICENSE", File "MIT")])])].

(** Nothing to aggregate: no project license and no eligible entry. *)
Definition fs_nothing : node :=
  Dir [("out.txt", File "earlier output");
       ("third_party",
        Dir [("config", Dir [("LICENSE", File "x")]);
             ("_gclient_tmp", Dir []);
             ("README", File "read me")])].

End Samples.

(** ** More sample trees *)

Module MoreSamples.
Import Os Licenses.

(** The tree of the first scenario with the entries of the third-party
    root enumerated the other way round. *)
Definition fs_demo_reversed : node :=
  Dir [("LICENSE", File "Proprietary");
       ("third_party",
        Dir [("libA", Dir [("src", Dir [("COPYING", File "inner")]);
                           ("notes.txt", File "notes");
                           ("LICENSE", File "MIT")]);
             ("README", File "read me");
             ("_gclient_tmp", Dir []);
             ("LICENSE.lss", File "BSD");
             ("ninja", Dir [("COPYING", File "Apache")]);
             ("lss", Dir [("linux_syscall_support.h", File "code");
                          ("LICENSE", File "not this one")])])].

(** The license file of the project is there and is empty. *)
Definition fs_empty_primary : node :=
  Dir [("LICENSE", File "");
       ("third_party", Dir [("libA", Dir [("LICENSE", File "MIT")])])].

(** A dependency whose license files lie in subdirectories: a deep one in
    the subdirectory enumerated first, a near one in the second. *)
Definition fs_depth : node :=
  Dir [("third_party",
        Dir [("libD",
              Dir [("README", File "read me");
                   ("deep", Dir [("a", Dir [("COPYING", File "deep text")])]);
                   ("near", Dir [("LICENSE", File "near text")])])])].







(** An environment with the variables of a Go installation set. *)
Definition environ_demo : list (string * string) :=
  [("PATH", "/usr/bin"); ("GOROOT", "/opt/go"); ("GOARCH", "arm64");
   ("GOPATH", "/home/me/go"); ("HOME", "/home/me")].

End MoreSamples.

(** ** Facts about strings and their order *)

Section StringFacts.

Lemma append_nil_r (s : string) : s ++ "" = s.
Proof. induction s as [|c s IH]; simpl; [reflexivity | now rewrite IH]. Qed.

Lemma append_assoc (s t u : string) : (s ++ t) ++ u = s ++ (t ++ u).
Proof. induction s as [|c s IH]; simpl; [reflexivity | now rewrite IH]. Qed.

Lemma append_eq_nil (s t : string) : s ++ t = "" -> s = "" /\ t = "".
Proof. destruct s; simpl; [auto | discriminate]. Qed.

Lemma ascii_compare_refl (c : ascii) : Ascii.compare c c = Eq.
Proof. unfold Ascii.compare. apply N.compare_refl. Qed.

Lemma ascii_compare_lt_trans (a b c : ascii) :
  Ascii.compare a b = Lt -> Ascii.compare b c = Lt -> Ascii.compare a c = Lt.
Proof.
  unfold Ascii.compare. rewrite !N.compare_lt_iff. apply N.lt_trans.
Qed.

Lemma compare_refl (s : string) : String.compare s s = Eq.
Proof.
  induction s as [|c s IH]; simpl; [reflexivity|].
  now rewrite ascii_compare_refl.
Qed.

Lemma compare_lt_trans (s t u : string) :
  String.compare s t = Lt -> String.compare t u = Lt ->
  String.compare s u = Lt.
Proof.
  revert t u. induction s as [|a s IH]; intros [|b t] [|c u]; simpl;
    try congruence.
  destruct (Ascii.compare a b) eqn:Hab; try discriminate;
    destruct (Ascii.compare b c) eqn:Hbc; try discriminate; intros H1 H2.
  - apply Ascii.compare_eq_iff in Hab, Hbc. subst.
    rewrite ascii_compare_refl. eauto.
  - apply Ascii.compare_eq_iff in Hab. subst. now rewrite Hbc.
  - apply Ascii.compare_eq_iff in Hbc. subst. now rewrite Hab.
  - now rewrite (ascii_compare_lt_trans _ _ _ Hab Hbc).
Qed.

Lemma leb_refl (s : string) : String.leb s s = true.
Proof. unfold String.leb. now rewrite compare_refl. Qed.

Lemma leb_trans (s t u : string) :
  String.leb s t = true -> String.leb t u = true -> String.leb s u = true.
Proof.
  unfold String.leb.
  destruct (String.compare s t) eqn:Hst; try discriminate;
    destruct (String.compare t u) eqn:Htu; try discriminate; intros _ _.
  - apply String.compare_eq_iff in Hst, Htu. subst. now rewrite compare_refl.
  - apply String.compare_eq_iff in Hst. subst. now rewrite Htu.
  - apply String.compare_eq_iff in Htu. subst. now rewrite Hst.
  - now rewrite (compare_lt_trans _ _ _ Hst Htu).
Qed.

Lemma leb_false_leb (s t : string) :
  String.leb s t = false -> String.leb t s = true.
Proof.
  intros H. destruct (String.leb_total s t) as [E|E]; congruence.
Qed.

End StringFacts.

(** ** Facts about the file system *)

Module OsFacts.
Import Os.

Lemma assoc_In {A} (k : string) (l : list (string * A)) (v : A) :
  assoc k l = Some v -> In (k, v) l.
Proof.
  induction l as [|[k' v'] l IH]; simpl; [discriminate|].
  destruct (String.eqb_spec k k') as [->|Hne].
  - intros [= ->]. now left.
  - intros H. right. auto.
Qed.

Lemma assoc_None {A} (k : string) (l : list (string * A)) :
  assoc k l = None <-> ~ In k (map fst l).
Proof.
  induction l as [|[k' v'] l IH]; simpl.
  - split; [intros _ []| reflexivity].
  - destruct (String.eqb_spec k k') as [->|Hne].
    + split; [discriminate | intros H; exfalso; apply H; now left].
    + rewrite IH. split.
      * intros H [E|E]; [congruence | contradiction].
      * intros H E. apply H. now right.
Qed.

Lemma existsb_eqb_In (x : string) (l : list string) :
  existsb (String.eqb x) l = true <-> In x l.
Proof.
  rewrite existsb_exists. split.
  - intros (y & Hin & E). apply String.eqb_eq in E. now subst.
  - intros H. exists x. split; [assumption | apply String.eqb_refl].
Qed.

Lemma distinct_NoDup (l : list string) : distinct l = true <-> NoDup l.
Proof.
  induction l as [|x l IH]; simpl.
  - split; [constructor | reflexivity].
  - rewrite andb_true_iff, negb_true_iff, IH. split.
    + intros [H1 H2]. constructor; [|assumption].
      rewrite <- existsb_eqb_In. congruence.
    + intros H. inversion H as [|? ? Hn Hd]; subst. split; [|assumption].
      destruct (existsb (String.eqb x) l) eqn:E; [|reflexivity].
      apply existsb_eqb_In in E. contradiction.
Qed.

(** In a directory without repeated names, an entry is found under its
    name. *)
Lemma In_assoc {A} (k : string) (v : A) (l : list (string * A)) :
  NoDup (map fst l) -> In (k, v) l -> assoc k l = Some v.
Proof.
  induction l as [|[k' v'] l IH]; simpl; [intros _ []|].
  intros Hnd [E|Hin].
  - injection E as -> ->. now rewrite String.eqb_refl.
  - inversion Hnd as [|? ? Hn Hd]; subst.
    destruct (String.eqb_spec k k') as [->|Hne].
    + exfalso. apply Hn. apply (in_map fst) in Hin. exact Hin.
    + auto.
Qed.

(** What a chain of links leads to is no link. *)
Lemma deref_idem (n m : node) : deref n = Some m -> deref m = Some m.
Proof.
  induction n as [c|es _|t IH|] using node_ind'; simpl; intros H;
    try (injection H as <-; reflexivity); auto; discriminate.
Qed.

Lemma resolve_nil (n : node) :
  resolve n [] = match deref n with Some m => inr m | None => inl ENOENT end.
Proof. reflexivity. Qed.

Lemma resolve_cons (n : node) (x : string) (p : path) :
  resolve n (x :: p) =
    match deref n with
    | None => inl ENOENT
    | Some (Dir es) =>
        match assoc x es with
        | Some c => resolve c p
        | None => inl ENOENT
        end
    | Some _ => inl ENOTDIR
    end.
Proof. simpl. now destruct (deref n) as [[| | |]|]. Qed.

Lemma resolve_deref (n m : node) (p : path) :
  deref n = Some m -> resolve n p = resolve m p.
Proof.
  intros H. pose proof (deref_idem _ _ H) as Hm.
  destruct p; simpl; now rewrite H, Hm.
Qed.

(** Resolution ends at a file or a directory. *)
Lemma resolve_no_link (n m : node) (p : path) :
  resolve n p = inr m -> deref m = Some m.
Proof.
  revert n. induction p as [|x p IH]; intros n.
  - rewrite resolve_nil. destruct (deref n) as [m'|] eqn:E; [|discriminate].
    intros [= <-]. exact (deref_idem _ _ E).
  - rewrite resolve_cons. destruct (deref n) as [[c|es|t|]|]; try discriminate.
    destruct (assoc x es) as [child|]; [apply IH | discriminate].
Qed.

Lemma deref_kind (n m : node) :
  deref n = Some m -> (exists c, m = File c) \/ (exists es, m = Dir es).
Proof.
  induction n as [c|es _|t IH|] using node_ind'; simpl; intros H;
    try (injection H as <-; eauto); auto; discriminate.
Qed.

Lemma resolve_kind (n m : node) (p : path) :
  resolve n p = inr m -> (exists c, m = File c) \/ (exists es, m = Dir es).
Proof. intros H. exact (deref_kind _ _ (resolve_no_link _ _ _ H)). Qed.

Lemma resolve_app (n m : node) (p q : path) :
  resolve n p = inr m -> resolve n (p ++ q)%list = resolve m q.
Proof.
  revert n. induction p as [|x p IH]; intros n.
  - rewrite resolve_nil. destruct (deref n) as [m'|] eqn:E; [|discriminate].
    intros [= <-]. simpl app. now apply resolve_deref.
  - simpl app. rewrite !resolve_cons.
    destruct (deref n) as [[c|es|t|]|]; try discriminate.
    destruct (assoc x es) as [child|]; [apply IH | discriminate].
Qed.

(** A prefix that fails to resolve makes the whole path fail. *)
Lemma resolve_app_inl (n : node) (p q : path) (e : errno) :
  resolve n p = inl e -> exists e', resolve n (p ++ q)%list = inl e'.
Proof.
  revert n. induction p as [|x p IH]; intros n.
  - rewrite resolve_nil. destruct (deref n) as [m|] eqn:E; [discriminate|].
    intros _. destruct q; simpl; rewrite E; eauto.
  - simpl app. rewrite !resolve_cons.
    destruct (deref n) as [[c|es|t|]|]; eauto.
    destruct (assoc x es) as [child|]; [apply IH | eauto].
Qed.

Lemma wf_Dir (es : list (string * node)) :
  wf (Dir es) = true ->
  NoDup (map fst es) /\ forall e, In e es -> wf (snd e) = true.
Proof.
  simpl. rewrite andb_true_iff, distinct_NoDup, forallb_forall. tauto.
Qed.

Lemma wf_deref (n m : node) : wf n = true -> deref n = Some m -> wf m = true.
Proof.
  induction n as [c|es _|t IH|] using node_ind'; simpl; intros Hwf H;
    try (injection H as <-; exact Hwf); auto; discriminate.
Qed.

Lemma wf_resolve (n m : node) (p : path) :
  wf n = true -> resolve n p = inr m -> wf m = true.
Proof.
  revert n. induction p as [|x p IH]; intros n Hwf.
  - rewrite resolve_nil. destruct (deref n) as [m'|] eqn:E; [|discriminate].
    intros [= <-]. exact (wf_deref _ _ Hwf E).
  - rewrite resolve_cons. destruct (deref n) as [[c|es|t|]|] eqn:E;
      try discriminate.
    destruct (assoc x es) as [child|] eqn:Ea; [|discriminate].
    apply IH. apply (wf_deref _ _ Hwf) in E. apply wf_Dir in E as [_ Hall].
    apply (Hall (x, child)). now apply assoc_In.
Qed.

(** [sorted] permutes its argument into ascending order. *)
Lemma insert_perm (x : string) (l : list string) :
  Permutation (x :: l) (insert x l).
Proof.
  induction l as [|y l IH]; simpl; [reflexivity|].
  destruct (String.leb x y); [reflexivity|].
  rewrite perm_swap. now constructor.
Qed.

Lemma sorted_perm (l : list string) : Permutation l (sorted l).
Proof.
  induction l as [|x l IH]; simpl; [constructor|].
  rewrite <- insert_perm. now constructor.
Qed.

Lemma sorted_In (x : string) (l : list string) : In x (sorted l) <-> In x l.
Proof.
  split; apply Permutation_in; [symmetry|]; apply sorted_perm.
Qed.

Lemma insert_ascending (x : string) (l : list string) :
  StronglySorted le l -> StronglySorted le (insert x l).
Proof.
  induction l as [|y l IH]; simpl; intros H.
  - repeat constructor.
  - inversion H as [|? ? Hl Hy]; subst.
    destruct (String.leb x y) eqn:E.
    + constructor; [assumption|]. constructor; [exact E|].
      rewrite Forall_forall in Hy |- *. intros z Hz.
      eapply leb_trans; [exact E | now apply Hy].
    + constructor; [now apply IH|].
      rewrite Forall_forall in Hy |- *. intros z Hz.
      apply (Permutation_in _ (Permutation_sym (insert_perm x l))) in Hz.
      destruct Hz as [<-|Hz]; [now apply leb_false_leb | now apply Hy].
Qed.

Lemma sorted_ascending (l : list string) : StronglySorted le (sorted l).
Proof.
  induction l as [|x l IH]; simpl; [constructor | now apply insert_ascending].
Qed.

Lemma filter_ascending (f : string -> bool) (l : list string) :
  StronglySorted le l -> StronglySorted le (filter f l).
Proof.
  induction 1 as [|x l Hl IH Hx]; simpl; [constructor|].
  destruct (f x); [|assumption].
  constructor; [assumption|].
  rewrite Forall_forall in Hx |- *. intros z Hz.
  apply filter_In in Hz as [Hz _]. auto.
Qed.

(** Two ascending lists with the same elements, each without
    repetition, are the same list. *)
Lemma ascending_unique (l1 l2 : list string) :
  StronglySorted le l1 -> StronglySorted le l2 ->
  NoDup l1 -> NoDup l2 ->
  (forall x, In x l1 <-> In x l2) -> l1 = l2.
Proof.
  revert l2. induction l1 as [|x l1 IH]; intros l2 S1 S2 N1 N2 Heq.
  - destruct l2 as [|y l2]; [reflexivity|].
    exfalso. apply (Heq y). now left.
  - destruct l2 as [|y l2]; [exfalso; apply (Heq x); now left|].
    inversion S1 as [|? ? S1' F1]; inversion S2 as [|? ? S2' F2]; subst.
    inversion N1 as [|? ? X1 N1']; inversion N2 as [|? ? X2 N2']; subst.
    rewrite Forall_forall in F1, F2.
    assert (x = y) as ->.
    { assert (Hx : In x (y :: l2)) by (apply Heq; now left).
      assert (Hy : In y (x :: l1)) by (apply Heq; now left).
      destruct Hx as [E|Hx]; [now symmetry|].
      destruct Hy as [E|Hy]; [assumption|].
      apply String.leb_antisym; [now apply F1 | now apply F2]. }
    f_equal. apply IH; try assumption.
    intros z. split; intros Hz.
    + assert (H : In z (y :: l2)) by (apply Heq; now right).
      destruct H as [<-|H]; [contradiction | assumption].
    + assert (H : In z (y :: l1)) by (apply Heq; now right).
      destruct H as [<-|H]; [contradiction | assumption].
Qed.

(** Writing: the file is there afterwards, with the text written. *)
Lemma assoc_update {A} (k : string) (v v0 : A) (l : list (string * A)) :
  assoc k l = Some v0 -> assoc k (update k v l) = Some v.
Proof.
  induction l as [|[k' v'] l IH]; simpl; [discriminate|].
  destruct (String.eqb k k') eqn:E; simpl; rewrite E; auto.
Qed.

Lemma assoc_app_new {A} (k : string) (v : A) (l : list (string * A)) :
  assoc k l = None -> assoc k (l ++ [(k, v)])%list = Some v.
Proof.
  induction l as [|[k' v'] l IH]; simpl.
  - now rewrite String.eqb_refl.
  - destruct (String.eqb k k'); [discriminate | assumption].
Qed.

Lemma deref_retarget (n m : node) :
  deref m = Some m -> deref (retarget n m) = Some m.
Proof.
  intros Hm. induction n as [c|es _|t IH|] using node_ind'; simpl;
    assumption.
Qed.

Lemma store_read (p : path) :
  forall (n n' : node) (c : string),
    store n p c = inr n' -> resolve n' p = inr (File c).
Proof.
  induction p as [|x p IH]; intros n n' c; simpl store.
  - destruct (deref n) as [[c0|es|t|]|]; try discriminate;
      intros [= <-]; rewrite resolve_nil;
      now rewrite (deref_retarget _ (File c) eq_refl).
  - destruct (deref n) as [[c0|es|t|]|]; try discriminate.
    destruct (assoc x es) as [child|] eqn:E.
    + destruct (store child p c) as [e|child'] eqn:W; [discriminate|].
      intros [= <-]. rewrite resolve_cons.
      rewrite (deref_retarget _ (Dir _) eq_refl).
      rewrite (assoc_update _ _ _ _ E). eauto.
    + destruct p; [|discriminate]. intros [= <-]. rewrite resolve_cons.
      rewrite (deref_retarget _ (Dir _) eq_refl).
      now rewrite (assoc_app_new _ _ _ E).
Qed.

(** Whether the file can be opened for writing does not depend on the
    text. *)
Lemma store_any (p : path) :
  forall (n n' : node) (c c0 : string),
    store n p c = inr n' -> exists n0, store n p c0 = inr n0.
Proof.
  induction p as [|x p IH]; intros n n' c c0; simpl store.
  - destruct (deref n) as [[c1|es|t|]|]; try discriminate; eauto.
  - destruct (deref n) as [[c1|es|t|]|]; try discriminate.
    destruct (assoc x es) as [child|] eqn:E.
    + destruct (store child p c) as [e|child'] eqn:W; [discriminate|].
      intros _. destruct (IH _ _ _ c0 W) as (n0 & ->). eauto.
    + destruct p; [eauto | discriminate].
Qed.

Lemma write_inr (n n' : node) (p : path) (c : string) :
  write n p c = inr n' <-> store n p c = inr n' /\ ascii_only c = true.
Proof.
  unfold write. split.
  - destruct (store n p "") as [e|n0]; [discriminate|].
    destruct (ascii_only c); [|discriminate].
    destruct (store n p c); [discriminate|]. now intros [= ->].
  - intros [Hs Ha]. destruct (store_any _ _ _ _ "" Hs) as (n0 & ->).
    now rewrite Ha, Hs.
Qed.

(** Writing: the file is there afterwards, with the text written. *)
Lemma write_read (n n' : node) (p : path) (c : string) :
  write n p c = inr n' -> resolve n' p = inr (File c).
Proof. intros H. apply write_inr in H as [H _]. exact (store_read _ _ _ _ H). Qed.

Lemma store_succeeds (parent : path) :
  forall (fs : node) (name c : string),
    isdir fs parent = true -> isdir fs (join parent name) = false ->
    exists fs', store fs (join parent name) c = inr fs'.
Proof.
  unfold isdir, join.
  induction parent as [|x p IH]; intros fs name c.
  - rewrite resolve_nil. simpl app. rewrite resolve_cons. simpl store.
    destruct (deref fs) as [[c0|es|t|]|]; try discriminate. intros _.
    destruct (assoc name es) as [child|]; [|eauto].
    rewrite resolve_nil. simpl store.
    destruct (deref child) as [[c1|es1|t1|]|]; eauto; discriminate.
  - simpl app. rewrite !resolve_cons. simpl store.
    destruct (deref fs) as [[c0|es|t|]|]; try discriminate.
    destruct (assoc x es) as [child|]; [|discriminate].
    intros H1 H2. destruct (IH child name c H1 H2) as (child' & Hc).
    simpl app in Hc. rewrite Hc. eauto.
Qed.

(** The output file can be opened for writing when its directory exists
    and the path itself is not a directory; a text that encodes is then
    written. *)
Lemma write_succeeds (fs : node) (parent : path) (name c : string) :
  ascii_only c = true ->
  isdir fs parent = true -> isdir fs (join parent name) = false ->
  exists fs', write fs (join parent name) c = inr fs'.
Proof.
  intros Ha H1 H2.
  destruct (store_succeeds parent fs name c H1 H2) as (fs' & Hs).
  exists fs'. apply write_inr. now split.
Qed.

Lemma perm_filter {A} (f : A -> bool) (l l' : list A) :
  Permutation l l' -> Permutation (filter f l) (filter f l').
Proof.
  induction 1 as [|x l l' _ IH|x y l|l l' l'' _ IH1 _ IH2]; simpl.
  - constructor.
  - destruct (f x); [now constructor | assumption].
  - destruct (f x), (f y); try reflexivity. apply perm_swap.
  - now rewrite IH1.
Qed.

Lemma In_dirnames (es : list (string * node)) (d : string) :
  In d (dirnames es) <-> exists n, In (d, n) es /\ is_dir_node n = true.
Proof.
  unfold dirnames. rewrite in_map_iff. split.
  - intros ([k n] & <- & Hin). apply filter_In in Hin as [Hin Hb]. eauto.
  - intros (n & Hin & Hb). exists (d, n). split; [reflexivity|].
    apply filter_In. now split.
Qed.

Lemma In_filenames (es : list (string * node)) (f : string) :
  In f (filenames es) <-> exists n, In (f, n) es /\ is_dir_node n = false.
Proof.
  unfold filenames. rewrite in_map_iff. split.
  - intros ([k n] & <- & Hin). apply filter_In in Hin as [Hin Hb].
    apply negb_true_iff in Hb. eauto.
  - intros (n & Hin & Hb). exists (f, n). split; [reflexivity|].
    apply filter_In. split; [assumption|]. now apply negb_true_iff.
Qed.

(** [os.path.isdir] of an entry of a directory is [entry.is_dir()]. *)
Lemma isdir_entry (fs : node) (tp : path) (es : list (string * node))
  (k : string) (v : node) :
  resolve fs tp = inr (Dir es) -> assoc k es = Some v ->
  isdir fs (join tp k) = is_dir_node v.
Proof.
  intros Htp Hk. unfold isdir, join, is_dir_node.
  rewrite (resolve_app _ _ _ _ Htp), resolve_cons. cbn [deref].
  rewrite Hk, resolve_nil. now destruct (deref v) as [[| | |]|].
Qed.

End OsFacts.

(** ** Facts about [FindLicense] *)

Module ResolverFacts.
Import Os OsFacts Licenses.

Lemma mem_In (x : string) (l : list string) : mem x l = true <-> In x l.
Proof. apply existsb_eqb_In. Qed.

Lemma IsLicenseFile_spec (name : string) :
  IsLicenseFile name = true <-> In name LICENSE_NAMES.
Proof. apply mem_In. Qed.


Lemma find_in_files_find (fs : node) (cur : path) (files : list string) :
  find_in_files fs cur files =
    option_map (fun f => ReadFile fs (join cur f)) (find IsLicenseFile files).
Proof.
  induction files as [|f files IH]; simpl; [reflexivity|].
  destruct (IsLicenseFile f); [reflexivity | assumption].
Qed.





Lemma descend_resolve (q : path) :
  forall (n : node) (es : list (string * node)),
    descend n q = Some es -> resolve n q = inr (Dir es).
Proof.
  induction q as [|x q IH]; intros n es; destruct n as [c|es0|t|];
    simpl descend; try discriminate.
  - now intros [= ->].
  - rewrite resolve_cons. cbn [deref].
    destruct (assoc x es0) as [child|]; [apply IH | discriminate].
Qed.



(** Reading an entry of a directory the walk gets to. *)
Lemma resolve_walked (fs n : node) (top q : path)
  (es : list (string * node)) (f : string) (v : node) :
  resolve fs top = inr n -> descend n q = Some es ->
  NoDup (map fst es) -> In (f, v) es ->
  resolve fs (join (top ++ q)%list f) = resolve v [].
Proof.
  intros Htop Hq Hnd Hin. unfold join. rewrite <- app_assoc.
  rewrite (resolve_app _ _ _ _ Htop).
  rewrite (resolve_app _ _ _ _ (descend_resolve _ _ _ Hq)).
  rewrite resolve_cons. cbn [deref]. now rewrite (In_assoc _ _ _ Hnd Hin).
Qed.


End ResolverFacts.

(** ** Facts about the aggregation *)

Module AggregatorFacts.
Import Os OsFacts Licenses Design ResolverFacts.

Lemma concat_snoc (sep x : string) (ls : list string) :
  ls <> [] ->
  String.concat sep (ls ++ [x])%list = String.concat sep ls ++ sep ++ x.
Proof.
  induction ls as [|y ls IH]; [congruence|]. intros _.
  destruct ls as [|z ls]; [reflexivity|].
  change (String.concat sep ((y :: z :: ls) ++ [x])%list)
    with (y ++ sep ++ String.concat sep ((z :: ls) ++ [x])%list).
  rewrite IH by discriminate.
  change (String.concat sep (y :: z :: ls))
    with (y ++ sep ++ String.concat sep (z :: ls)).
  now rewrite !append_assoc.
Qed.

Lemma render_block_not_empty (b : block) : render_block b <> "".
Proof.
  unfold render_block. intros H.
  apply append_eq_nil in H as [_ H]. discriminate.
Qed.

Lemma render_doc_empty (bs : list block) : render_doc bs = "" -> bs = [].
Proof.
  destruct bs as [|b bs]; [reflexivity|]. unfold render_doc. simpl.
  destruct (map render_block bs).
  - intros H. now apply render_block_not_empty in H.
  - intros H. apply append_eq_nil in H as [H _].
    now apply render_block_not_empty in H.
Qed.

(** Adding a block to a rendered document renders the longer list. *)
Lemma AddLicenseFile_render (bs : list block) (b : block) :
  add_block (render_doc bs) b = render_doc (bs ++ [b]).
Proof.
  unfold add_block, AddLicenseFile.
  destruct (String.eqb_spec (render_doc bs) "") as [E|E].
  - apply render_doc_empty in E. subst. unfold render_doc. simpl.
    unfold render_block. now rewrite !append_assoc.
  - unfold render_doc in *. rewrite map_app. simpl.
    rewrite concat_snoc by (destruct bs; [now elim E | discriminate]).
    unfold render_block, separator. now rewrite !append_assoc.
Qed.

Lemma fold_add_block_render (bs0 bs : list block) :
  fold_left add_block bs (render_doc bs0) = render_doc (bs0 ++ bs).
Proof.
  revert bs0. induction bs as [|b bs IH]; intros bs0; simpl.
  - now rewrite app_nil_r.
  - rewrite AddLicenseFile_render, IH. now rewrite <- app_assoc.
Qed.

Lemma falsy_resolved (c : string) : c <> "" -> falsy (Some c) = false.
Proof. intros H. simpl. now apply String.eqb_neq. Qed.

Lemma eligible_unfold (fs : node) (tp : path) (d : string) :
  eligible fs tp d =
    if negb (isdir fs (join tp d)) then false
    else if String.prefix "_gclient_" d then false
    else if mem d PRUNE_DIRS then false else true.
Proof.
  unfold eligible.
  destruct (isdir fs (join tp d)), (String.prefix "_gclient_" d),
    (mem d PRUNE_DIRS); reflexivity.
Qed.

(** What the loop of [main] does: it resolves the eligible names in
    order; it ends with the document when every one resolves to a text
    that is not empty, and raises at the first that does not. *)
Lemma loop_inv (fs : node) (tp : path) (ds : list string) :
  forall (acc : string) (evs : list event) (r : result string),
    loop fs tp ds acc = (evs, r) ->
    match r with
    | Ok doc =>
        exists bs,
          filter (eligible fs tp) ds = map fst bs /\
          Forall (resolved fs tp) bs /\
          evs = map ok_event bs /\
          doc = fold_left add_block bs acc
    | Raise e =>
        exists bs d post,
          filter (eligible fs tp) ds = (map fst bs ++ d :: post)%list /\
          Forall (resolved fs tp) bs /\
          evs = (map ok_event bs
                   ++ [EvFindLicense d (FindLicense fs tp d)])%list /\
          (FindLicense fs tp d = Raise e \/
           exists x, FindLicense fs tp d = Ok x /\ falsy x = true /\
                     e = Exception (not_found_msg d))
    end.
Proof.
  induction ds as [|d ds IH]; intros acc evs r; cbn [loop filter].
  - intros [= <- <-]. exists []. repeat split; constructor.
  - rewrite eligible_unfold.
    destruct (negb (isdir fs (join tp d))); [apply IH|].
    destruct (String.prefix "_gclient_" d); [apply IH|].
    destruct (mem d PRUNE_DIRS); [apply IH|].
    destruct (FindLicense fs tp d) as [x|e] eqn:F.
    + destruct (falsy x) eqn:Hx.
      * intros [= <- <-]. exists [], d, (filter (eligible fs tp) ds).
        rewrite F. repeat split; [constructor|]. right. eauto.
      * destruct x as [c|]; [|discriminate].
        destruct (loop fs tp ds (AddLicenseFile acc d c)) as [evs' r'] eqn:L.
        intros [= <- <-]. specialize (IH _ _ _ L).
        assert (Hb : resolved fs tp (d, c)).
        { split; [exact F|]. simpl in *. now apply String.eqb_neq. }
        destruct r' as [doc|e].
        -- destruct IH as (bs & Hf & Hr & -> & ->).
           exists ((d, c) :: bs). simpl. rewrite Hf.
           repeat split. now constructor.
        -- destruct IH as (bs & d' & post & Hf & Hr & -> & Hd).
           exists ((d, c) :: bs), d', post. simpl. rewrite Hf.
           repeat split; [now constructor | assumption].
    + intros [= <- <-]. exists [], d, (filter (eligible fs tp) ds).
      rewrite F. repeat split; [constructor|]. now left.
Qed.

Lemma processed_app (e1 e2 : list event) :
  processed (e1 ++ e2) = (processed e1 ++ processed e2)%list.
Proof. apply flat_map_app. Qed.

Lemma processed_ok (bs : list block) :
  processed (map ok_event bs) = map fst bs.
Proof.
  induction bs as [|b bs IH]; simpl; [reflexivity | now rewrite IH].
Qed.

Lemma In_ok_event (bs : list block) (ev : event) :
  In ev (map ok_event bs) -> exists b, In b bs /\ ev = ok_event b.
Proof. rewrite in_map_iff. intros (b & <- & H). eauto. Qed.

End AggregatorFacts.

(** ** Facts about whole runs *)

Module RunFacts.
Import Os OsFacts Licenses Design ResolverFacts AggregatorFacts.

(** The ways through [main]: the license of the project, the listing, the
    loop, the writing. *)
Ltac run_cases fs a :=
  unfold main;
  destruct (primary fs a) as [c0|e0] eqn:Hprimary;
  [ destruct (listdir fs (third_party_dir a)) as [names|e1] eqn:Hlist;
    [ destruct (loop fs (third_party_dir a) (sorted names) c0)
        as [evs [doc|e2]] eqn:Hloop;
      [ destruct (write fs (output_file a) doc)
          as [[e3|truncated]|fs'] eqn:Hwrite | ];
      apply loop_inv in Hloop
    | ]
  | ];
  cbn [outcome events fs_after].

Lemma read_missing (fs : node) (p : path) :
  exists_ fs p = false -> exists e, ReadFile fs p = Raise e.
Proof.
  unfold exists_, ReadFile, read.
  destruct (resolve fs p); [eauto | discriminate].
Qed.

Lemma read_exists (fs : node) (p : path) (c : string) :
  ReadFile fs p = Ok c -> exists_ fs p = true.
Proof.
  unfold exists_, ReadFile, read.
  destruct (resolve fs p); [discriminate | reflexivity].
Qed.

Lemma primary_render (fs : node) (a : args) (c0 : string) :
  primary fs a = Ok c0 -> c0 = render_doc (primary_blocks fs a).
Proof.
  unfold primary, primary_blocks.
  destruct (exists_ fs (goma_license a)) eqn:Hex.
  - destruct (ReadFile fs (goma_license a)) as [c|e]; simpl;
      [now intros [= <-] | discriminate].
  - destruct (read_missing _ _ Hex) as (e & ->). now intros [= <-].
Qed.

Lemma primary_blocks_exists (fs : node) (a : args) (c0 : string) :
  primary fs a = Ok c0 ->
  if exists_ fs (goma_license a)
  then exists c, ReadFile fs (goma_license a) = Ok c /\
                 primary_blocks fs a = [(GOMA_TITLE, c)]
  else primary_blocks fs a = [].
Proof.
  unfold primary, primary_blocks.
  destruct (exists_ fs (goma_license a)) eqn:Hex.
  - destruct (ReadFile fs (goma_license a)) as [c|e]; simpl;
      [eauto | discriminate].
  - destruct (read_missing _ _ Hex) as (e & ->). reflexivity.
Qed.

Lemma Scanner_listdir (fs : node) (tp : path) (names : list string) :
  listdir fs tp = Ok names ->
  Scanner fs tp = Ok (filter (eligible fs tp) (sorted names)).
Proof. unfold Scanner. now intros ->. Qed.

Lemma Scanner_inv (fs : node) (tp : path) (ds : list string) :
  Scanner fs tp = Ok ds ->
  exists names,
    listdir fs tp = Ok names /\ ds = filter (eligible fs tp) (sorted names).
Proof.
  unfold Scanner. destruct (listdir fs tp) as [names|e]; simpl;
    [|discriminate]. intros [= <-]. eauto.
Qed.

(** The loop goes all the way when every eligible name resolves. *)
Lemma loop_complete (fs : node) (tp : path) (ds : list string) :
  forall (bs : list block) (acc : string),
    filter (eligible fs tp) ds = map fst bs ->
    Forall (resolved fs tp) bs ->
    loop fs tp ds acc = (map ok_event bs, Ok (fold_left add_block bs acc)).
Proof.
  induction ds as [|d ds IH]; intros bs acc; cbn [loop filter].
  - destruct bs; [reflexivity | discriminate].
  - rewrite eligible_unfold.
    destruct (negb (isdir fs (join tp d))); [apply IH|].
    destruct (String.prefix "_gclient_" d); [apply IH|].
    destruct (mem d PRUNE_DIRS); [apply IH|].
    destruct bs as [|[d' c] bs]; [discriminate|].
    simpl. intros [= <- Hf] Hr.
    inversion Hr as [|? ? [Hd Hc] Hr']; subst. simpl in Hd, Hc.
    rewrite Hd, (falsy_resolved _ Hc).
    now rewrite (IH bs (AddLicenseFile acc d c) Hf Hr').
Qed.

(** A run succeeds when the license of the project is read or is absent,
    every scanned dependency resolves, and the output file is written:
    the document holds the blocks in order. *)
Lemma main_succeeds (fs fs' : node) (a : args) (bs : list block)
  (c0 : string) :
  primary fs a = Ok c0 ->
  Scanner fs (third_party_dir a) = Ok (map fst bs) ->
  Forall (resolved fs (third_party_dir a)) bs ->
  write fs (output_file a) (render_doc (primary_blocks fs a ++ bs))
    = inr fs' ->
  main fs a =
    {| outcome := Ok tt;
       events := (map ok_event bs ++ [EvOpenWrite (output_file a)])%list;
       fs_after := fs' |}.
Proof.
  intros Hp Hs Hr Hw.
  apply Scanner_inv in Hs as (names & Hl & Hf).
  rewrite (primary_render _ _ _ Hp) in Hp.
  unfold main. rewrite Hp, Hl.
  rewrite (loop_complete _ _ _ bs _ (eq_sym Hf) Hr).
  rewrite fold_add_block_render. now rewrite Hw.
Qed.

(** What a successful run has done. *)
Lemma main_ok_inv (fs : node) (a : args) :
  outcome (main fs a) = Ok tt ->
  exists bs,
    Scanner fs (third_party_dir a) = Ok (map fst bs) /\
    Forall (resolved fs (third_party_dir a)) bs /\
    events (main fs a)
      = (map ok_event bs ++ [EvOpenWrite (output_file a)])%list /\
    write fs (output_file a) (render_doc (primary_blocks fs a ++ bs))
      = inr (fs_after (main fs a)).
Proof.
  run_cases fs a; try discriminate. intros _.
  destruct Hloop as (bs & Hf & Hr & -> & ->).
  exists bs. rewrite (Scanner_listdir _ _ _ Hlist), Hf.
  repeat split; [assumption|].
  rewrite (primary_render _ _ _ Hprimary), fold_add_block_render in Hwrite.
  exact Hwrite.
Qed.

(** A run in which [FindLicense] returned nothing, or an empty text, for
    [d]: it raises the exception that names [d]; the calls of
    [FindLicense] are those for the scan order up to [d]; the output file
    is not opened and the file system is as it was. *)
Lemma falsy_result_aborts (fs : node) (a : args) (d : string)
  (x : option string) :
  In (EvFindLicense d (Ok x)) (events (main fs a)) ->
  falsy x = true ->
  outcome (main fs a) = Raise (Exception (not_found_msg d)) /\
  (exists pre post,
      Scanner fs (third_party_dir a) = Ok (pre ++ d :: post)%list /\
      processed (events (main fs a)) = (pre ++ [d])%list) /\
  (forall p, ~ In (EvOpenWrite p) (events (main fs a))) /\
  fs_after (main fs a) = fs.
Proof.
  assert (Hok : forall bs,
             Forall (resolved fs (third_party_dir a)) bs ->
             In (EvFindLicense d (Ok x)) (map ok_event bs) ->
             falsy x = true -> False).
  { intros bs Hr Hin Hx. apply In_ok_event in Hin as (b & Hb & E).
    injection E as -> ->. rewrite Forall_forall in Hr.
    destruct (Hr _ Hb) as [_ Hne]. rewrite (falsy_resolved _ Hne) in Hx.
    discriminate. }
  run_cases fs a; try (intros []).
  - destruct Hloop as (bs & Hf & Hr & -> & ->). intros Hin Hx.
    apply in_app_or in Hin as [Hin|[Hin|[]]]; [|discriminate].
    exfalso. eauto.
  - destruct Hloop as (bs & Hf & Hr & -> & ->). intros Hin Hx.
    apply in_app_or in Hin as [Hin|[Hin|[]]]; [|discriminate].
    exfalso. eauto.
  - destruct Hloop as (bs & Hf & Hr & -> & ->). intros Hin Hx.
    apply in_app_or in Hin as [Hin|[Hin|[]]]; [|discriminate].
    exfalso. eauto.
  - destruct Hloop as (bs & d' & post & Hf & Hr & -> & Hd). intros Hin Hx.
    apply in_app_or in Hin as [Hin|[Hin|[]]]; [exfalso; eauto|].
    injection Hin as -> Hres.
    destruct Hd as [Hd|(x' & Hd & _ & ->)]; [congruence|].
    split; [reflexivity|]. split; [|split; [|reflexivity]].
    + exists (map fst bs), post.
      rewrite (Scanner_listdir _ _ _ Hlist), Hf. split; [reflexivity|].
      rewrite processed_app, processed_ok. reflexivity.
    + intros p Hp. apply in_app_or in Hp as [Hp|[Hp|[]]]; [|discriminate].
      apply In_ok_event in Hp as (b & _ & Hp). discriminate.
Qed.

(** A scanned dependency that does not resolve makes the run raise, with
    the output file not opened and the file system as it was. *)
Lemma unresolved_scanned_aborts (fs : node) (a : args)
  (ds : list string) (d : string) :
  Scanner fs (third_party_dir a) = Ok ds -> In d ds ->
  (forall c, ~ resolved fs (third_party_dir a) (d, c)) ->
  (exists e, outcome (main fs a) = Raise e) /\
  (forall p, ~ In (EvOpenWrite p) (events (main fs a))) /\
  fs_after (main fs a) = fs.
Proof.
  intros Hs Hd Hnr.
  assert (Hall : forall bs,
             ds = map fst bs ->
             Forall (resolved fs (third_party_dir a)) bs -> False).
  { intros bs -> Hr. apply in_map_iff in Hd as ([d' c] & <- & Hb).
    rewrite Forall_forall in Hr. exact (Hnr c (Hr _ Hb)). }
  apply Scanner_inv in Hs as (names0 & Hl & ->).
  run_cases fs a.
  - destruct Hloop as (bs & Hf & Hr & _). exfalso.
    injection Hl as <-. eauto.
  - destruct Hloop as (bs & Hf & Hr & _). exfalso.
    injection Hl as <-. eauto.
  - destruct Hloop as (bs & Hf & Hr & _). exfalso.
    injection Hl as <-. eauto.
  - destruct Hloop as (bs & d' & post & Hf & Hr & -> & _).
    split; [eauto|]. split; [|reflexivity].
    intros p Hp. apply in_app_or in Hp as [Hp|[Hp|[]]]; [|discriminate].
    apply In_ok_event in Hp as (b & _ & Hp). discriminate.
  - congruence.
  - split; [eauto|]. split; [intros p []|reflexivity].
Qed.

(** The events tell what [FindLicense] returned. *)
Lemma events_faithful (fs : node) (a : args) (d : string)
  (r : result (option string)) :
  In (EvFindLicense d r) (events (main fs a)) ->
  r = FindLicense fs (third_party_dir a) d.
Proof.
  assert (Hok : forall bs,
             Forall (resolved fs (third_party_dir a)) bs ->
             In (EvFindLicense d r) (map ok_event bs) ->
             r = FindLicense fs (third_party_dir a) d).
  { intros bs Hr Hin. apply In_ok_event in Hin as (b & Hb & E).
    injection E as -> ->. rewrite Forall_forall in Hr.
    destruct (Hr _ Hb) as [Hres _]. now rewrite Hres. }
  run_cases fs a; try (intros []).
  - destruct Hloop as (bs & _ & Hr & -> & _). intros Hin.
    apply in_app_or in Hin as [Hin|[Hin|[]]]; [eauto | discriminate].
  - destruct Hloop as (bs & _ & Hr & -> & _). intros Hin.
    apply in_app_or in Hin as [Hin|[Hin|[]]]; [eauto | discriminate].
  - destruct Hloop as (bs & _ & Hr & -> & _). intros Hin.
    apply in_app_or in Hin as [Hin|[Hin|[]]]; [eauto | discriminate].
  - destruct Hloop as (bs & d' & post & _ & Hr & -> & _). intros Hin.
    apply in_app_or in Hin as [Hin|[Hin|[]]]; [eauto|].
    now injection Hin as -> <-.
Qed.

(** The loop gets to the first eligible name that follows resolved ones,
    and calls [FindLicense] on it. *)
Lemma loop_reaches (fs : node) (tp : path) (ds : list string) :
  forall (bs : list block) (d : string) (post : list string) (acc : string),
    filter (eligible fs tp) ds = (map fst bs ++ d :: post)%list ->
    Forall (resolved fs tp) bs ->
    exists evs r,
      loop fs tp ds acc
        = ((map ok_event bs
              ++ EvFindLicense d (FindLicense fs tp d) :: evs)%list, r).
Proof.
  induction ds as [|d0 ds IH]; intros bs d post acc; cbn [loop filter].
  - destruct bs; discriminate.
  - rewrite eligible_unfold.
    destruct (negb (isdir fs (join tp d0))); [apply IH|].
    destruct (String.prefix "_gclient_" d0); [apply IH|].
    destruct (mem d0 PRUNE_DIRS); [apply IH|].
    destruct bs as [|[d' c] bs]; simpl.
    + intros [= -> Hf] _.
      destruct (FindLicense fs tp d) as [x|e]; [|eauto].
      destruct (falsy x); [eauto|].
      destruct (loop fs tp ds _) as [evs r]. eauto.
    + intros [= -> Hf] Hr.
      inversion Hr as [|? ? [Hd Hc] Hr']; subst. simpl in Hd, Hc.
      rewrite Hd, (falsy_resolved _ Hc).
      destruct (IH bs d post (AddLicenseFile acc d' c) Hf Hr')
        as (evs & r & ->). eauto.
Qed.

(** So [FindLicense] is called on a scanned dependency whenever the
    license of the project did not raise and the dependencies scanned
    before it resolve. *)
Lemma first_unresolved_is_reached (fs : node) (a : args)
  (bs : list block) (d : string) (post : list string) (c0 : string) :
  primary fs a = Ok c0 ->
  Scanner fs (third_party_dir a) = Ok (map fst bs ++ d :: post)%list ->
  Forall (resolved fs (third_party_dir a)) bs ->
  In (EvFindLicense d (FindLicense fs (third_party_dir a) d))
     (events (main fs a)).
Proof.
  intros Hp Hs Hr. apply Scanner_inv in Hs as (names & Hl & Hf).
  unfold main. rewrite Hp, Hl.
  destruct (loop_reaches fs _ _ bs d post c0 (eq_sym Hf) Hr)
    as (evs & r & ->).
  assert (Hin : forall tl,
             In (EvFindLicense d (FindLicense fs (third_party_dir a) d))
                ((map ok_event bs
                    ++ EvFindLicense d (FindLicense fs (third_party_dir a) d)
                    :: evs) ++ tl)%list).
  { intros tl. apply in_or_app. left. apply in_or_app. right. now left. }
  destruct r as [doc|e]; cbn [events].
  - destruct (write fs (output_file a) doc) as [[e|t]|fs']; apply Hin.
  - rewrite <- (app_nil_r (_ ++ _ :: evs)). apply Hin.
Qed.

End RunFacts.

(** ** The properties of the design, on the code *)

Import Os OsFacts Licenses Design Samples.
Import ResolverFacts AggregatorFacts RunFacts.

(** *** Failure containment *)

(** C1. In every run in which the resolver returns "not found" for a
    scanned dependency [d], the program ends with a non-zero status on
    the exception whose message names [d]; [FindLicense] has been called
    for the dependencies of the scan order up to [d] and for none after
    it; the output file is never opened, and the file system, an earlier
    output file included, is as it was. *)
Theorem unresolved_dependency_aborts (fs : node) (a : args) (d : string) :
  In (EvFindLicense d (Ok None)) (events (main fs a)) ->
  outcome (main fs a)
    = Raise (Exception ("license file not found in " ++ d)) /\
  exit_status (main fs a) = 1 /\
  FindLicense fs (third_party_dir a) d = Ok None /\
  (exists pre post,
      Scanner fs (third_party_dir a) = Ok (pre ++ d :: post)%list /\
      processed (events (main fs a)) = (pre ++ [d])%list) /\
  (forall p, ~ In (EvOpenWrite p) (events (main fs a))) /\
  fs_after (main fs a) = fs.
Proof.
  intros Hin.
  destruct (falsy_result_aborts fs a d None Hin eq_refl)
    as (Hout & Hscan & Hopen & Hfs).
  repeat split; try assumption.
  - unfold exit_status. now rewrite Hout.
  - symmetry. exact (events_faithful _ _ _ _ Hin).
Qed.

Lemma unresolved_dependency_aborts_witness :
  In (EvFindLicense "libB" (Ok None)) (events (main fs_unresolved a_demo)) /\
  outcome (main fs_unresolved a_demo)
    = Raise (Exception "license file not found in libB") /\
  processed (events (main fs_unresolved a_demo)) = ["libA"; "libB"] /\
  resolve (fs_after (main fs_unresolved a_demo)) ["out.txt"]
    = inr (File "earlier output").
Proof.
  assert (H : In (EvFindLicense "libB" (Ok None))
                 (events (main fs_unresolved a_demo)))
    by (vm_compute; auto).
  split; [exact H|].
  destruct (unresolved_dependency_aborts fs_unresolved a_demo "libB" H)
    as (Hout & _ & _ & _ & _ & Hfs).
  split; [exact Hout|]. split; [reflexivity|].
  rewrite Hfs. reflexivity.
Defined.

(** C9. In every run in which the resolver returns the empty text for a
    scanned dependency [d] (the file it found is there and is empty), the
    program ends on the same "license file not found" exception naming
    [d] as when no file is found: a successful run needs every resolved
    text to be non-empty. *)
Theorem empty_license_text_aborts (fs : node) (a : args) (d : string) :
  In (EvFindLicense d (Ok (Some ""))) (events (main fs a)) ->
  FindLicense fs (third_party_dir a) d = Ok (Some "") /\
  outcome (main fs a)
    = Raise (Exception ("license file not found in " ++ d)) /\
  exit_status (main fs a) = 1 /\
  (exists pre post,
      Scanner fs (third_party_dir a) = Ok (pre ++ d :: post)%list /\
      processed (events (main fs a)) = (pre ++ [d])%list) /\
  (forall p, ~ In (EvOpenWrite p) (events (main fs a))) /\
  fs_after (main fs a) = fs.
Proof.
  intros Hin.
  destruct (falsy_result_aborts fs a d (Some "") Hin eq_refl)
    as (Hout & Hscan & Hopen & Hfs).
  repeat split; try assumption.
  - symmetry. exact (events_faithful _ _ _ _ Hin).
  - unfold exit_status. now rewrite Hout.
Qed.

Lemma empty_license_text_aborts_witness :
  In (EvFindLicense "libB" (Ok (Some "")))
     (events (main fs_empty_text a_demo)) /\
  resolve fs_empty_text ["third_party"; "libB"; "LICENSE"] = inr (File "") /\
  outcome (main fs_empty_text a_demo)
    = Raise (Exception "license file not found in libB").
Proof.
  assert (H : In (EvFindLicense "libB" (Ok (Some "")))
                 (events (main fs_empty_text a_demo)))
    by (vm_compute; auto).
  split; [exact H|]. split; [reflexivity|].
  exact (proj1 (proj2 (empty_license_text_aborts _ _ _ H))).
Defined.

(** *** The resolver *)




(** C7. For a dependency with an entry in the override map whose file
    does not exist, the resolver raises the error of opening that path:
    it returns neither "not found" nor any text, whatever the subtree of
    the dependency holds.  A run that scans the dependency ends on an
    exception, the one of the resolver when the run gets to call it;
    the output file is not opened and the file system is as it was. *)
Theorem missing_override_file_aborts (fs : node) (a : args)
  (name rel : string) (ds : list string) :
  assoc name SPECIAL_CASES = Some rel ->
  exists_ fs (join (third_party_dir a) rel) = false ->
  Scanner fs (third_party_dir a) = Ok ds ->
  In name ds ->
  exists e,
    FindLicense fs (third_party_dir a) name
      = Raise (OSError e (join (third_party_dir a) rel)) /\
    (exists e', outcome (main fs a) = Raise e') /\
    exit_status (main fs a) = 1 /\
    (In name (processed (events (main fs a))) ->
     outcome (main fs a)
       = Raise (OSError e (join (third_party_dir a) rel))) /\
    (forall p, ~ In (EvOpenWrite p) (events (main fs a))) /\
    fs_after (main fs a) = fs.
Proof.
  intros Hsp Hex Hs Hd.
  assert (Hfind : exists e,
             FindLicense fs (third_party_dir a) name
               = Raise (OSError e (join (third_party_dir a) rel))).
  { unfold FindLicense, ReadFile, read, exists_ in *. rewrite Hsp.
    destruct (resolve fs (join (third_party_dir a) rel)) as [e|n];
      [|discriminate]. simpl. eauto. }
  destruct Hfind as (e & Hfind). exists e.
  destruct (unresolved_scanned_aborts fs a ds name Hs Hd)
    as ((e' & Hout) & Hopen & Hfs).
  { intros c [Hc _]. simpl in Hc. congruence. }
  repeat split; eauto.
  - unfold exit_status. now rewrite Hout.
  - clear Hout Hopen Hfs. revert Hs. run_cases fs a; intros Hs Hin;
      try (now destruct Hin).
    + destruct Hloop as (bs & _ & Hr & -> & _).
      rewrite processed_app, processed_ok, app_nil_r in Hin.
      apply in_map_iff in Hin as (b & <- & Hb).
      rewrite Forall_forall in Hr. destruct (Hr _ Hb) as [Hc _]. congruence.
    + destruct Hloop as (bs & _ & Hr & -> & _).
      rewrite processed_app, processed_ok, app_nil_r in Hin.
      apply in_map_iff in Hin as (b & <- & Hb).
      rewrite Forall_forall in Hr. destruct (Hr _ Hb) as [Hc _]. congruence.
    + destruct Hloop as (bs & _ & Hr & -> & _).
      rewrite processed_app, processed_ok, app_nil_r in Hin.
      apply in_map_iff in Hin as (b & <- & Hb).
      rewrite Forall_forall in Hr. destruct (Hr _ Hb) as [Hc _]. congruence.
    + destruct Hloop as (bs & d' & post & _ & Hr & -> & Hd').
      rewrite processed_app, processed_ok in Hin.
      apply in_app_or in Hin as [Hin|[<-|[]]].
      * apply in_map_iff in Hin as (b & <- & Hb).
        rewrite Forall_forall in Hr. destruct (Hr _ Hb) as [Hc _].
        congruence.
      * destruct Hd' as [Hd'|(x & Hd' & _)]; congruence.
Qed.

Lemma missing_override_file_aborts_witness :
  assoc "zlib" SPECIAL_CASES = Some "LICENSE.zlib" /\
  exists_ fs_no_override ["third_party"; "LICENSE.zlib"] = false /\
  resolve fs_no_override ["third_party"; "zlib"; "LICENSE"]
    = inr (File "zlib license") /\
  exists e,
    FindLicense fs_no_override ["third_party"] "zlib"
      = Raise (OSError e ["third_party"; "LICENSE.zlib"]) /\
    outcome (main fs_no_override a_demo)
      = Raise (OSError e ["third_party"; "LICENSE.zlib"]).
Proof.
  split; [reflexivity|]. split; [reflexivity|]. split; [reflexivity|].
  destruct (missing_override_file_aborts fs_no_override a_demo
              "zlib" "LICENSE.zlib" ["libA"; "zlib"]
              eq_refl eq_refl eq_refl (or_intror (or_introl eq_refl)))
    as (e & Hfind & _ & _ & Hrun & _).
  exists e. split; [exact Hfind|].
  apply Hrun. vm_compute. auto.
Defined.




(** *** The scanner *)

Lemma kept_spec (d : string) :
  kept d = true <->
  ~ In d ["chromium_build"; "config"; "llvm-build"; "ninja"] /\
  String.prefix "_gclient_" d = false.
Proof.
  unfold kept. rewrite andb_true_iff, !negb_true_iff.
  change ["chromium_build"; "config"; "llvm-build"; "ninja"] with PRUNE_DIRS.
  rewrite <- mem_In. destruct (mem d PRUNE_DIRS); intuition congruence.
Qed.

(** In a directory without repeated names, the tests of the loop keep the
    subdirectories the scan lets through. *)
Lemma eligible_entries (fs : node) (tp : path) (es : list (string * node)) :
  resolve fs tp = inr (Dir es) ->
  NoDup (map fst es) ->
  forall es', incl es' es ->
    filter (eligible fs tp) (map fst es') = filter kept (dirnames es').
Proof.
  intros Htp Hnd. induction es' as [|[k v] es' IH]; intros Hincl;
    [reflexivity|].
  assert (Hk : eligible fs tp k = is_dir_node v && kept k).
  { unfold eligible, kept.
    rewrite (isdir_entry fs tp es k v Htp)
      by (apply In_assoc; [assumption | apply Hincl; now left]).
    destruct (is_dir_node v), (String.prefix "_gclient_" k),
      (mem k PRUNE_DIRS); reflexivity. }
  assert (IH' : filter (eligible fs tp) (map fst es')
                = filter kept (dirnames es')).
  { apply IH. intros e He. apply Hincl. now right. }
  unfold dirnames in *. cbn [map fst filter snd]. rewrite Hk.
  destruct (is_dir_node v); cbn [andb map fst filter]; [|exact IH'].
  destruct (kept k); now rewrite IH'.
Qed.

(** The names the scan keeps, for a root without repeated names. *)
Lemma Scanner_members (fs : node) (tp : path) (es : list (string * node)) :
  resolve fs tp = inr (Dir es) ->
  NoDup (map fst es) ->
  exists l,
    Scanner fs tp = Ok l /\
    Permutation l (filter kept (dirnames es)) /\
    StronglySorted le l /\ NoDup l.
Proof.
  intros Htp Hnd.
  exists (filter (eligible fs tp) (sorted (map fst es))).
  split; [|split; [|split]].
  - unfold Scanner, listdir. now rewrite Htp.
  - rewrite <- (eligible_entries fs tp es Htp Hnd es (incl_refl _)).
    apply perm_filter. symmetry. apply sorted_perm.
  - apply filter_ascending, sorted_ascending.
  - apply NoDup_filter. exact (Permutation_NoDup (sorted_perm _) Hnd).
Qed.

(** What the loop of [main] has gone through of a list of names: the
    names that resolve, up to and with the first that does not. *)
Lemma main_goes_through (fs : node) (a : args) (l : list string)
  (text0 : string) :
  primary fs a = Ok text0 ->
  Scanner fs (third_party_dir a) = Ok l ->
  exists bs rest,
    l = (map fst bs ++ rest)%list /\
    Forall (resolved fs (third_party_dir a)) bs /\
    processed (events (main fs a)) = (map fst bs ++ firstn 1 rest)%list /\
    (forall d c, hd_error rest = Some d ->
       ~ resolved fs (third_party_dir a) (d, c)).
Proof.
  intros Hp Hs. apply Scanner_inv in Hs as (names0 & Hl & ->).
  revert Hp Hl. run_cases fs a; intros Hp Hl; try discriminate;
    injection Hl as <-.
  - destruct Hloop as (bs & Hf & Hr & -> & _). exists bs, [].
    rewrite Hf, processed_app, processed_ok, !app_nil_r.
    repeat split; [assumption | discriminate].
  - destruct Hloop as (bs & Hf & Hr & -> & _). exists bs, [].
    rewrite Hf, processed_app, processed_ok, !app_nil_r.
    repeat split; [assumption | discriminate].
  - destruct Hloop as (bs & Hf & Hr & -> & _). exists bs, [].
    rewrite Hf, processed_app, processed_ok, !app_nil_r.
    repeat split; [assumption | discriminate].
  - destruct Hloop as (bs & d & post & Hf & Hr & -> & Hd).
    exists bs, (d :: post).
    rewrite Hf, processed_app, processed_ok.
    repeat split; [assumption|].
    intros d' c [= <-] [Hc Hne]. simpl in Hc, Hne.
    destruct Hd as [Hd|(x & Hd & Hx & _)]; [congruence|].
    rewrite Hc in Hd. injection Hd as <-. simpl in Hx.
    apply String.eqb_eq in Hx. contradiction.
Qed.

(** C3. For every root directory (in a file system where no directory
    lists a name twice), the scan is the names of the immediate
    subdirectories of the root, those that are neither in the prune set
    nor prefixed with "_gclient_": a rearrangement of exactly these
    names, without repetition, in ascending lexicographic order.  It is
    the scan of the program: the loop of [main] calls the resolver on the
    names of this list, in this order, from the first up to and with the
    first that does not resolve, and on nothing else. *)
Theorem Scanner_lists_dependency_directories (fs : node) (a : args)
  (es : list (string * node)) :
  wf fs = true ->
  resolve fs (third_party_dir a) = inr (Dir es) ->
  exists l,
    Scanner fs (third_party_dir a) = Ok l /\
    Permutation l (filter kept (dirnames es)) /\
    StronglySorted le l /\
    NoDup l /\
    (forall d,
        In d l <->
        (exists n, In (d, n) es /\ is_dir_node n = true) /\
        ~ In d ["chromium_build"; "config"; "llvm-build"; "ninja"] /\
        String.prefix "_gclient_" d = false) /\
    (forall c0, primary fs a = Ok c0 ->
       exists bs rest,
         l = (map fst bs ++ rest)%list /\
         Forall (resolved fs (third_party_dir a)) bs /\
         processed (events (main fs a)) = (map fst bs ++ firstn 1 rest)%list /\
         (forall d c, hd_error rest = Some d ->
            ~ resolved fs (third_party_dir a) (d, c))).
Proof.
  intros Hwf Htp.
  assert (Hnd : NoDup (map fst es)).
  { apply (wf_resolve _ _ _ Hwf) in Htp. now apply wf_Dir in Htp. }
  destruct (Scanner_members fs _ es Htp Hnd) as (l & Hs & Hperm & Hsort & Hndl).
  exists l. repeat (split; [assumption|]). split.
  - intros d. split.
    + intros Hin. apply (Permutation_in _ Hperm) in Hin.
      apply filter_In in Hin as [Hd Hk].
      split; [now apply In_dirnames | now apply kept_spec].
    + intros [Hd Hk]. apply (Permutation_in _ (Permutation_sym Hperm)).
      apply filter_In. split; [now apply In_dirnames | now apply kept_spec].
  - intros c0 Hp. exact (main_goes_through fs a l c0 Hp Hs).
Qed.

Lemma Scanner_lists_dependency_directories_witness :
  wf fs_demo = true /\
  listdir fs_demo (third_party_dir a_demo)
    = Ok ["lss"; "ninja"; "LICENSE.lss"; "_gclient_tmp"; "README"; "libA"] /\
  Scanner fs_demo (third_party_dir a_demo) = Ok ["libA"; "lss"] /\
  processed (events (main fs_demo a_demo)) = ["libA"; "lss"] /\
  exists l,
    Scanner fs_unresolved (third_party_dir a_demo) = Ok l /\
    l = ["libA"; "libB"; "libC"] /\
    processed (events (main fs_unresolved a_demo)) = ["libA"; "libB"].
Proof.
  split; [reflexivity|]. split; [reflexivity|].
  destruct (Scanner_lists_dependency_directories fs_demo a_demo _
              eq_refl eq_refl) as (l & Hl & _).
  split; [reflexivity|]. split; [reflexivity|].
  destruct (Scanner_lists_dependency_directories fs_unresolved a_demo _
              eq_refl eq_refl) as (l' & Hl' & _).
  exists l'. split; [exact Hl'|]. split; [|reflexivity].
  change (Scanner fs_unresolved (third_party_dir a_demo))
    with (Ok (A:=list string) ["libA"; "libB"; "libC"]) in Hl'.
  now injection Hl' as <-.
Defined.

(** *** The document *)

Lemma equals_length (n : nat) : String.length (equals n) = n.
Proof. induction n as [|n IH]; simpl; [reflexivity | now rewrite IH]. Qed.

Lemma equals_get (n i : nat) :
  i < n -> String.get i (equals n) = Some "="%char.
Proof.
  revert i. induction n as [|n IH]; intros i Hi; [lia|].
  destruct i as [|i]; simpl; [reflexivity | apply IH; lia].
Qed.

Lemma exists_false_primary_blocks (fs : node) (a : args) :
  exists_ fs (goma_license a) = false ->
  primary_blocks fs a = [] /\ isdir fs (goma_license a) = false.
Proof.
  intros Hex. split.
  - unfold primary_blocks. now destruct (read_missing _ _ Hex) as (e & ->).
  - revert Hex. unfold exists_, isdir.
    destruct (resolve fs (goma_license a)); [auto | discriminate].
Qed.

Lemma exists_false_primary (fs : node) (a : args) :
  exists_ fs (goma_license a) = false -> primary fs a = Ok "".
Proof. intros Hex. unfold primary. now rewrite Hex. Qed.

(** C8. In every successful run the document written holds, in this
    order, the block titled "Goma Client" with the license of the project
    exactly when the license file of the project exists, then one block
    per scanned dependency, titled with its name and holding the text
    the resolver found, the names in ascending lexicographic order. *)
Theorem blocks_in_scan_order (fs : node) (a : args) :
  outcome (main fs a) = Ok tt ->
  exists bs,
    Scanner fs (third_party_dir a) = Ok (map fst bs) /\
    StronglySorted le (map fst bs) /\
    Forall (resolved fs (third_party_dir a)) bs /\
    resolve (fs_after (main fs a)) (output_file a)
      = inr (File (render_doc (primary_blocks fs a ++ bs))) /\
    if exists_ fs (goma_license a)
    then exists c, ReadFile fs (goma_license a) = Ok c /\
                   primary_blocks fs a = [("Goma Client", c)]
    else primary_blocks fs a = [].
Proof.
  intros Hok.
  destruct (main_ok_inv fs a Hok) as (bs & Hs & Hr & _ & Hw).
  exists bs. split; [exact Hs|]. split; [|split; [exact Hr|split]].
  - apply Scanner_inv in Hs as (names & _ & E). rewrite E.
    apply filter_ascending, sorted_ascending.
  - exact (write_read _ _ _ _ Hw).
  - revert Hok. unfold main.
    destruct (primary fs a) as [c0|e] eqn:Hp; [|discriminate].
    intros _. exact (primary_blocks_exists _ _ _ Hp).
Qed.

Lemma blocks_in_scan_order_witness :
  outcome (main fs_demo a_demo) = Ok tt /\
  exists bs,
    map fst bs = ["libA"; "lss"] /\
    resolve (fs_after (main fs_demo a_demo)) ["out.txt"]
      = inr (File (render_doc (("Goma Client", "Proprietary") :: bs))).
Proof.
  split; [reflexivity|].
  destruct (blocks_in_scan_order fs_demo a_demo eq_refl)
    as (bs & Hs & _ & _ & Hw & _).
  exists bs. split; [|exact Hw].
  change (Scanner fs_demo (third_party_dir a_demo))
    with (Ok (A:=list string) ["libA"; "lss"]) in Hs.
  now injection Hs as <-.
Defined.

(** C2, as the code has it.  In every successful run the document is the
    blocks of the run joined by the two-character separator of two line
    feeds, and each block is its title, a line feed, as many ['='] as the
    title has characters, a line feed, and then at once the license
    text: no blank line stands between the line of ['='] and the text. *)
Theorem blocks_layout (fs : node) (a : args) :
  outcome (main fs a) = Ok tt ->
  exists bs,
    Scanner fs (third_party_dir a) = Ok (map fst bs) /\
    Forall (resolved fs (third_party_dir a)) bs /\
    resolve (fs_after (main fs a)) (output_file a)
      = inr (File
               (String.concat (nl ++ nl)
                  (map (fun b =>
                          fst b ++ nl
                            ++ equals (String.length (fst b)) ++ nl
                            ++ snd b)
                       (primary_blocks fs a ++ bs)))) /\
    forall b, In b (primary_blocks fs a ++ bs)%list ->
      String.length (equals (String.length (fst b)))
        = String.length (fst b) /\
      forall i, i < String.length (fst b) ->
        String.get i (equals (String.length (fst b))) = Some "="%char.
Proof.
  intros Hok.
  destruct (main_ok_inv fs a Hok) as (bs & Hs & Hr & _ & Hw).
  exists bs. repeat split; try assumption.
  - exact (write_read _ _ _ _ Hw).
  - apply equals_length.
  - apply equals_get.
Qed.

Lemma blocks_layout_witness :
  outcome (main fs_demo a_demo) = Ok tt /\
  resolve (fs_after (main fs_demo a_demo)) (output_file a_demo)
    = inr (File
             ("Goma Client" ++ nl ++ "===========" ++ nl ++ "Proprietary"
                ++ nl ++ nl
                ++ "libA" ++ nl ++ "====" ++ nl ++ "MIT"
                ++ nl ++ nl
                ++ "lss" ++ nl ++ "===" ++ nl ++ "BSD")).
Proof.
  split; [reflexivity|].
  destruct (blocks_layout fs_demo a_demo eq_refl) as (bs & Hs & Hr & Hw & _).
  rewrite Hw. clear Hw.
  change (Scanner fs_demo (third_party_dir a_demo))
    with (Ok (A:=list string) ["libA"; "lss"]) in Hs.
  injection Hs as Hs.
  destruct bs as [|[d1 c1] [|[d2 c2] [|b bs]]]; try discriminate.
  injection Hs as <- <-.
  inversion Hr as [|? ? [H1 _] Hr']; subst.
  inversion Hr' as [|? ? [H2 _] _]; subst.
  vm_compute in H1, H2. injection H1 as <-. injection H2 as <-.
  reflexivity.
Defined.

(** The layout with a blank line after the line of ['='] is not what a
    run writes: the blocks of the first scenario, laid out that way, are
    not the document of the run. *)
Lemma described_layout_counterexample :
  outcome (main fs_demo a_demo) = Ok tt /\
  resolve (fs_after (main fs_demo a_demo)) (output_file a_demo)
    = inr (File (render_doc blocks_demo)) /\
  render_doc blocks_demo <> described_doc blocks_demo.
Proof.
  split; [reflexivity|]. split; [reflexivity|].
  intros H. apply String.eqb_eq in H. vm_compute in H. discriminate.
Qed.

(** *** The license of the project *)

(** A path that does not exist is not fatal: the run of the sample
    without a project license aggregates [libA] and succeeds. *)
Lemma absent_primary_license_counterexample :
  (forall c, resolve fs_no_primary (goma_license a_demo) <> inr (File c)) /\
  outcome (main fs_no_primary a_demo) = Ok tt /\
  exit_status (main fs_no_primary a_demo) = 0 /\
  events (main fs_no_primary a_demo)
    = [EvFindLicense "libA" (Ok (Some "MIT")); EvOpenWrite ["out.txt"]].
Proof.
  split; [intros c; discriminate|]. repeat split.
Qed.

(** C5, as the code has it.  When the license path of the project does
    not refer to an existing file, either it names a directory, and the
    run ends on the error of reading it before any dependency is looked
    at, or it names nothing, and this absence is allowed: no block of the
    project is produced and the aggregation of the third-party
    dependencies goes ahead, the run succeeding when every scanned
    dependency resolves and the output file can be written. *)
Theorem primary_license_not_a_file (fs : node) (a : args) :
  (forall c, resolve fs (goma_license a) <> inr (File c)) ->
  (isdir fs (goma_license a) = true /\
   main fs a = {| outcome := Raise (OSError EISDIR (goma_license a));
                  events := [];
                  fs_after := fs |})
  \/
  (exists_ fs (goma_license a) = false /\
   primary fs a = Ok "" /\
   forall (bs : list block) (fs' : node),
     Scanner fs (third_party_dir a) = Ok (map fst bs) ->
     Forall (resolved fs (third_party_dir a)) bs ->
     write fs (output_file a) (render_doc bs) = inr fs' ->
     main fs a =
       {| outcome := Ok tt;
          events := (map ok_event bs ++ [EvOpenWrite (output_file a)])%list;
          fs_after := fs' |}).
Proof.
  intros Hnf.
  destruct (resolve fs (goma_license a)) as [e|n] eqn:Hr.
  - right.
    assert (Hex : exists_ fs (goma_license a) = false)
      by (unfold exists_; now rewrite Hr).
    destruct (exists_false_primary_blocks fs a Hex) as [Hpb Hdir].
    split; [exact Hex|]. split.
    + now apply exists_false_primary.
    + intros bs fs' Hs Hres Hw.
      apply (main_succeeds fs fs' a bs ""); try assumption;
        [now apply exists_false_primary | now rewrite Hpb].
  - destruct (resolve_kind _ _ _ Hr) as [[c ->]|[es ->]];
      [now elim (Hnf c)|].
    left. split; [unfold isdir; now rewrite Hr|].
    unfold main, primary, exists_, ReadFile, read. now rewrite Hr.
Qed.

Lemma primary_license_not_a_file_witness :
  (forall c, resolve fs_no_primary (goma_license a_demo) <> inr (File c)) /\
  (forall c, resolve fs_primary_dir (goma_license a_demo) <> inr (File c)) /\
  outcome (main fs_no_primary a_demo) = Ok tt /\
  outcome (main fs_primary_dir a_demo) = Raise (OSError EISDIR ["LICENSE"]).
Proof.
  assert (H1 : forall c,
             resolve fs_no_primary (goma_license a_demo) <> inr (File c))
    by (intros c; discriminate).
  assert (H2 : forall c,
             resolve fs_primary_dir (goma_license a_demo) <> inr (File c))
    by (intros c; discriminate).
  split; [exact H1|]. split; [exact H2|]. split.
  - destruct (primary_license_not_a_file fs_no_primary a_demo H1)
      as [[Hd _]|[_ [_ Hrun]]]; [discriminate Hd|].
    destruct (write fs_no_primary (output_file a_demo)
                (render_doc [("libA", "MIT")])) as [e|fs'] eqn:Hw;
      [discriminate Hw|].
    rewrite (Hrun [("libA", "MIT")] fs' eq_refl); [reflexivity | | exact Hw].
    constructor; [|constructor]. split; [reflexivity | discriminate].
  - destruct (primary_license_not_a_file fs_primary_dir a_demo H2)
      as [[_ Hrun]|[He _]]; [|discriminate He].
    now rewrite Hrun.
Defined.

(** *** Nothing to aggregate *)

Lemma filter_nil {A} (f : A -> bool) (l : list A) :
  (forall x, In x l -> f x = false) -> filter f l = [].
Proof.
  induction l as [|x l IH]; intros H; [reflexivity|]. simpl.
  rewrite (H x (or_introl eq_refl)). apply IH. intros y Hy. apply H.
  now right.
Qed.

(** C10. When the license file of the project does not exist and every
    entry of the third-party root is a non-directory, in the prune set or
    prefixed with "_gclient_", the run succeeds with status 0 and writes
    the empty document to the output path, creating the file or replacing
    its contents (the output path being one that can be opened for
    writing: its directory exists and it is not a directory itself). *)
Theorem nothing_to_aggregate_writes_empty (fs : node) (a : args)
  (es : list (string * node)) (parent : path) (name : string) :
  exists_ fs (goma_license a) = false ->
  resolve fs (third_party_dir a) = inr (Dir es) ->
  (forall d, In d (map fst es) ->
     isdir fs (join (third_party_dir a) d) = false \/
     In d ["chromium_build"; "config"; "llvm-build"; "ninja"] \/
     String.prefix "_gclient_" d = true) ->
  output_file a = join parent name ->
  isdir fs parent = true ->
  isdir fs (output_file a) = false ->
  exists fs',
    main fs a = {| outcome := Ok tt;
                   events := [EvOpenWrite (output_file a)];
                   fs_after := fs' |} /\
    exit_status (main fs a) = 0 /\
    write fs (output_file a) "" = inr fs' /\
    resolve fs' (output_file a) = inr (File "").
Proof.
  intros Hex Htp Hnone Hout Hparent Hnotdir.
  destruct (exists_false_primary_blocks fs a Hex) as [Hpb Hdir].
  assert (Hw : exists fs', write fs (output_file a) "" = inr fs').
  { rewrite Hout in *. now apply write_succeeds. }
  destruct Hw as (fs' & Hw). exists fs'.
  assert (Hs : Scanner fs (third_party_dir a) = Ok []).
  { unfold Scanner, listdir. rewrite Htp. simpl. f_equal.
    apply filter_nil. intros d Hd.
    apply (proj1 (sorted_In _ _)) in Hd.
    unfold eligible.
    destruct (Hnone d Hd) as [H|[H|H]].
    - now rewrite H.
    - apply (mem_In d PRUNE_DIRS) in H. rewrite H.
      now rewrite andb_false_r.
    - rewrite H. now rewrite andb_false_r. }
  assert (Hrun : main fs a = {| outcome := Ok tt;
                                events := [EvOpenWrite (output_file a)];
                                fs_after := fs' |}).
  { apply (main_succeeds fs fs' a [] ""); try assumption;
      [now apply exists_false_primary | constructor | now rewrite Hpb]. }
  split; [exact Hrun|]. split; [now rewrite Hrun|]. split; [exact Hw|].
  exact (write_read _ _ _ _ Hw).
Qed.

Lemma nothing_to_aggregate_writes_empty_witness :
  exists_ fs_nothing (goma_license a_demo) = false /\
  listdir fs_nothing (third_party_dir a_demo)
    = Ok ["config"; "_gclient_tmp"; "README"] /\
  resolve fs_nothing (output_file a_demo) = inr (File "earlier output") /\
  exists fs',
    main fs_nothing a_demo
      = {| outcome := Ok tt;
           events := [EvOpenWrite (output_file a_demo)];
           fs_after := fs' |} /\
    resolve fs' (output_file a_demo) = inr (File "").
Proof.
  split; [reflexivity|]. split; [reflexivity|]. split; [reflexivity|].
  destruct (nothing_to_aggregate_writes_empty fs_nothing a_demo
              _ [] "out.txt" eq_refl eq_refl) as (fs' & Hrun & _ & _ & Hr);
    try reflexivity.
  - intros d [<-|[<-|[<-|[]]]]; vm_compute; auto.
  - exists fs'. split; [exact Hrun | exact Hr].
Defined.

(** ** Further properties of the code *)

(** *** What writing the output file changes *)

Import Frame.

Section WriteFrame.

Lemma assoc_update_other {A} (k k' : string) (v : A)
  (l : list (string * A)) :
  k' <> k -> assoc k' (update k v l) = assoc k' l.
Proof.
  intros Hne. induction l as [|[k0 v0] l IH]; simpl; [reflexivity|].
  destruct (String.eqb_spec k k0) as [->|Hk]; simpl.
  - destruct (String.eqb_spec k' k0); [contradiction | reflexivity].
  - destruct (String.eqb k' k0); [reflexivity | assumption].
Qed.

Lemma assoc_app {A} (k : string) (l1 l2 : list (string * A)) :
  assoc k (l1 ++ l2)%list =
    match assoc k l1 with Some v => Some v | None => assoc k l2 end.
Proof.
  induction l1 as [|[k0 v0] l1 IH]; simpl; [reflexivity|].
  destruct (String.eqb k k0); [reflexivity | assumption].
Qed.

Lemma update_update {A} (k : string) (v : A) (l : list (string * A)) :
  update k v (update k v l) = update k v l.
Proof.
  induction l as [|[k0 v0] l IH]; simpl; [reflexivity|].
  destruct (String.eqb k k0) eqn:E; simpl; rewrite E; [reflexivity|].
  now rewrite IH.
Qed.

Lemma update_app_new {A} (k : string) (v : A) (l : list (string * A)) :
  assoc k l = None ->
  update k v (l ++ [(k, v)])%list = (l ++ [(k, v)])%list.
Proof.
  induction l as [|[k0 v0] l IH]; simpl.
  - now rewrite String.eqb_refl.
  - destruct (String.eqb k k0); [discriminate|]. intros H. now rewrite IH.
Qed.

Lemma retarget_retarget (n m m' : node) :
  deref m = Some m ->
  retarget (retarget n m) m' = retarget n m'.
Proof.
  intros Hm.
  destruct (deref_kind _ _ Hm) as [[c1 ->]|[es1 ->]];
    induction n as [c|es _|t IH|] using node_ind'; simpl;
    try reflexivity; now rewrite IH.
Qed.


(** Opening and writing at [p] leaves every path that parts ways with
    [p] as it resolved before. *)
Lemma store_diverge (p : path) :
  forall (n n' : node) (c : string) (q : path),
    store n p c = inr n' -> diverge p q = true ->
    resolve n' q = resolve n q.
Proof.
  induction p as [|x p IH]; intros n n' c q; [discriminate|].
  simpl store. destruct q as [|y q]; [discriminate|].
  destruct (deref n) as [[c0|es|t|]|] eqn:E; try discriminate.
  destruct (assoc x es) as [child|] eqn:Ea.
  - destruct (store child p c) as [e|child'] eqn:W; [discriminate|].
    intros [= <-]. simpl diverge.
    rewrite !resolve_cons, E, (deref_retarget _ (Dir _) eq_refl).
    destruct (String.eqb_spec x y) as [<-|Hy].
    + intros Hd. rewrite (assoc_update _ _ _ _ Ea), Ea. eauto.
    + intros _. rewrite assoc_update_other by congruence. reflexivity.
  - destruct p; [|discriminate]. intros [= <-]. simpl diverge.
    rewrite !resolve_cons, E, (deref_retarget _ (Dir _) eq_refl).
    destruct (String.eqb_spec x y) as [<-|Hy]; [discriminate|].
    intros _. rewrite assoc_app.
    destruct (assoc y es); [reflexivity|]. simpl.
    destruct (String.eqb_spec y x); [congruence | reflexivity].
Qed.

(** Opening and writing the same text again changes nothing. *)
Lemma store_again (p : path) :
  forall (n n' : node) (c : string),
    store n p c = inr n' -> store n' p c = inr n'.
Proof.
  induction p as [|x p IH]; intros n n' c; simpl store.
  - destruct (deref n) as [[c0|es|t|]|] eqn:E; try discriminate;
      intros [= <-]; rewrite (deref_retarget _ (File c) eq_refl);
      now rewrite (retarget_retarget _ (File c) (File c) eq_refl).
  - destruct (deref n) as [[c0|es|t|]|] eqn:E; try discriminate.
    destruct (assoc x es) as [child|] eqn:Ea.
    + destruct (store child p c) as [e|child'] eqn:W; [discriminate|].
      intros [= <-]. rewrite (deref_retarget _ (Dir _) eq_refl).
      rewrite (assoc_update _ _ _ _ Ea), (IH _ _ _ W), update_update.
      now rewrite (retarget_retarget _ (Dir _) (Dir _) eq_refl).
    + destruct p; [|discriminate]. intros [= <-].
      rewrite (deref_retarget _ (Dir _) eq_refl).
      rewrite (assoc_app_new _ _ _ Ea). simpl.
      rewrite (update_app_new _ _ _ Ea).
      now rewrite (retarget_retarget _ (Dir _) (Dir _) eq_refl).
Qed.



Lemma write_diverge (n n' : node) (p q : path) (c : string) :
  write n p c = inr n' -> diverge p q = true -> resolve n' q = resolve n q.
Proof.
  intros H. apply write_inr in H as [H _]. exact (store_diverge _ _ _ _ _ H).
Qed.

(** Writing the same text again changes nothing. *)
Lemma write_again (n n' : node) (p : path) (c : string) :
  write n p c = inr n' -> write n' p c = inr n'.
Proof.
  intros H. apply write_inr in H as [H Ha]. apply write_inr.
  split; [exact (store_again _ _ _ _ H) | exact Ha].
Qed.

Lemma diverge_app (p q r : path) :
  diverge p q = true -> diverge p (q ++ r)%list = true.
Proof.
  revert q. induction p as [|x p IH]; intros [|y q]; simpl; try discriminate.
  destruct (String.eqb x y); auto.
Qed.

End WriteFrame.

(** *** The resolver and the scanner look below the third-party root only *)

Section Locality.

Lemma agree_under_app (fs fs' : node) (top q : path) :
  agree_under fs fs' top -> agree_under fs fs' (top ++ q)%list.
Proof. intros H r. rewrite <- !app_assoc. apply H. Qed.

Lemma agree_under_top (fs fs' : node) (top : path) :
  agree_under fs fs' top -> resolve fs' top = resolve fs top.
Proof. intros H. specialize (H []). now rewrite app_nil_r in H. Qed.

Lemma agree_under_write (fs fs' : node) (p top : path) (c : string) :
  write fs p c = inr fs' -> diverge p top = true -> agree_under fs fs' top.
Proof.
  intros Hw Hd q. apply (write_diverge _ _ _ _ _ Hw). now apply diverge_app.
Qed.

Lemma walk_node_curdirs (n : node) :
  forall (top cur : path) (dirs files : list string),
    In (cur, dirs, files) (walk_node top n) ->
    exists q, cur = (top ++ q)%list.
Proof.
  induction n as [c0|es IH|t _|] using node_ind';
    intros top cur dirs files; simpl; try (now intros []).
  intros [H|H].
  - injection H as <- _ _. exists []. now rewrite app_nil_r.
  - apply in_flat_map in H as ([x child] & He & H). simpl in H.
    rewrite Forall_forall in IH.
    destruct (IH _ He _ _ _ _ H) as (q & ->).
    exists (x :: q). unfold join. now rewrite <- app_assoc.
Qed.

Lemma find_in_files_agree (fs fs' : node) (cur : path)
  (files : list string) :
  agree_under fs fs' cur ->
  find_in_files fs' cur files = find_in_files fs cur files.
Proof.
  intros H. induction files as [|f files IH]; simpl; [reflexivity|].
  destruct (IsLicenseFile f); [|assumption].
  unfold ReadFile, read, join. now rewrite H.
Qed.

Lemma find_in_walk_agree (fs fs' : node) (top : path)
  (triples : list (path * list string * list string)) :
  agree_under fs fs' top ->
  (forall cur dirs files,
      In (cur, dirs, files) triples -> exists q, cur = (top ++ q)%list) ->
  find_in_walk fs' triples = find_in_walk fs triples.
Proof.
  intros H. induction triples as [|[[cur dirs] files] triples IH];
    intros Hcur; simpl; [reflexivity|].
  destruct (Hcur cur dirs files (or_introl eq_refl)) as (q & ->).
  rewrite (find_in_files_agree fs fs' _ files (agree_under_app _ _ _ q H)).
  destruct (find_in_files fs (top ++ q)%list files); [reflexivity|].
  apply IH. intros cur' dirs' files' Hin. apply (Hcur cur' dirs' files').
  now right.
Qed.

Lemma FindLicense_agree (fs fs' : node) (tp : path) (d : string) :
  agree_under fs fs' tp -> FindLicense fs' tp d = FindLicense fs tp d.
Proof.
  intros H. unfold FindLicense.
  destruct (assoc d SPECIAL_CASES) as [rel|].
  - unfold ReadFile, read, join. now rewrite H.
  - assert (Hd : agree_under fs fs' (join tp d))
      by (apply agree_under_app, H).
    unfold walk. rewrite (agree_under_top _ _ _ Hd).
    destruct (resolve fs (join tp d)) as [e|n]; [reflexivity|].
    apply (find_in_walk_agree fs fs' (join tp d)); [exact Hd|].
    apply walk_node_curdirs.
Qed.

Lemma isdir_agree (fs fs' : node) (tp : path) (d : string) :
  agree_under fs fs' tp -> isdir fs' (join tp d) = isdir fs (join tp d).
Proof. intros H. unfold isdir, join. now rewrite H. Qed.

Lemma listdir_agree (fs fs' : node) (tp : path) :
  agree_under fs fs' tp -> listdir fs' tp = listdir fs tp.
Proof.
  intros H. unfold listdir. now rewrite (agree_under_top _ _ _ H).
Qed.

Lemma loop_agree (fs fs' : node) (tp : path) (ds : list string) :
  agree_under fs fs' tp ->
  forall acc, loop fs' tp ds acc = loop fs tp ds acc.
Proof.
  intros H. induction ds as [|d ds IH]; intros acc; cbn [loop];
    [reflexivity|].
  rewrite (isdir_agree _ _ _ d H), (FindLicense_agree _ _ _ d H).
  destruct (negb (isdir fs (join tp d))); [apply IH|].
  destruct (String.prefix "_gclient_" d); [apply IH|].
  destruct (mem d PRUNE_DIRS); [apply IH|].
  destruct (FindLicense fs tp d) as [x|e]; [|reflexivity].
  destruct (falsy x); [reflexivity|]. now rewrite IH.
Qed.

Lemma eligible_agree (fs fs' : node) (tp : path) (d : string) :
  agree_under fs fs' tp -> eligible fs' tp d = eligible fs tp d.
Proof. intros H. unfold eligible. now rewrite (isdir_agree _ _ _ d H). Qed.

End Locality.

Lemma Scanner_agree (fs fs' : node) (tp : path) :
  agree_under fs fs' tp -> Scanner fs' tp = Scanner fs tp.
Proof.
  intros H. unfold Scanner. rewrite (listdir_agree _ _ _ H).
  destruct (listdir fs tp) as [names|e]; [|reflexivity]. simpl. f_equal.
  apply filter_ext. intros d. now apply eligible_agree.
Qed.

(** X1. Two file systems that hold the same below the third-party root
    give the same scan and the same resolution of every dependency:
    neither looks anywhere else. *)
Theorem resolution_is_local (fs fs' : node) (tp : path) :
  agree_under fs fs' tp ->
  Scanner fs' tp = Scanner fs tp /\
  forall d, FindLicense fs' tp d = FindLicense fs tp d.
Proof.
  intros H. split; [now apply Scanner_agree|].
  intros d. now apply FindLicense_agree.
Qed.

Lemma resolution_is_local_witness :
  agree_under fs_demo (fs_after (main fs_demo a_demo)) ["third_party"] /\
  fs_after (main fs_demo a_demo) <> fs_demo /\
  Scanner (fs_after (main fs_demo a_demo)) ["third_party"]
    = Scanner fs_demo ["third_party"].
Proof.
  assert (H : agree_under fs_demo (fs_after (main fs_demo a_demo))
                ["third_party"]).
  { apply (agree_under_write fs_demo _ ["out.txt"] _
             (render_doc blocks_demo)); reflexivity. }
  split; [exact H|]. split; [discriminate|].
  exact (proj1 (resolution_is_local _ _ _ H)).
Defined.

(** *** What a run leaves behind *)

Lemma ok_run_primary (fs : node) (a : args) :
  outcome (main fs a) = Ok tt -> exists c0, primary fs a = Ok c0.
Proof.
  unfold main. destruct (primary fs a) as [c0|e]; [eauto | discriminate].
Qed.



(** X3. Running the program again on what a successful run left behind
    succeeds again, calls the resolver in the same way and leaves the
    file system, the output file included, exactly as the first run left
    it; this needs the output path to part ways with the third-party
    root and with the license path of the project. *)
Theorem rerun_is_idempotent (fs : node) (a : args) :
  outcome (main fs a) = Ok tt ->
  diverge (output_file a) (third_party_dir a) = true ->
  diverge (output_file a) (goma_license a) = true ->
  main (fs_after (main fs a)) a =
    {| outcome := Ok tt;
       events := events (main fs a);
       fs_after := fs_after (main fs a) |}.
Proof.
  intros Hok Htp Hlic.
  destruct (main_ok_inv fs a Hok) as (bs & Hs & Hr & Hev & Hw).
  destruct (ok_run_primary fs a Hok) as (c0 & Hp).
  set (fs' := fs_after (main fs a)) in *.
  assert (Hag : agree_under fs fs' (third_party_dir a))
    by exact (agree_under_write _ _ _ _ _ Hw Htp).
  assert (Hl : resolve fs' (goma_license a) = resolve fs (goma_license a))
    by exact (write_diverge _ _ _ _ _ Hw Hlic).
  assert (Hp' : primary fs' a = primary fs a)
    by (unfold primary, exists_, ReadFile, read; now rewrite Hl).
  assert (Hpb : primary_blocks fs' a = primary_blocks fs a)
    by (unfold primary_blocks, ReadFile, read; now rewrite Hl).
  rewrite Hev. apply (main_succeeds fs' fs' a bs c0).
  - now rewrite Hp'.
  - now rewrite (Scanner_agree _ _ _ Hag).
  - rewrite Forall_forall in Hr |- *. intros b Hb.
    destruct (Hr b Hb) as [Hc Hne]. split; [|exact Hne].
    now rewrite (FindLicense_agree _ _ _ _ Hag).
  - rewrite Hpb. exact (write_again _ _ _ _ Hw).
Qed.

Lemma rerun_is_idempotent_witness :
  outcome (main fs_demo a_demo) = Ok tt /\
  fs_after (main (fs_after (main fs_demo a_demo)) a_demo)
    = fs_after (main fs_demo a_demo).
Proof.
  split; [reflexivity|].
  now rewrite (rerun_is_idempotent fs_demo a_demo eq_refl eq_refl eq_refl).
Defined.

(** *** When a run succeeds *)




(** *** How a run can fail *)





(** X6. A run never calls the resolver on anything but a scanned
    dependency: an entry of the third-party root that is a directory, is
    not in the prune set and has not the prefix "_gclient_". *)
Theorem only_eligible_resolved (fs : node) (a : args) (d : string)
  (r : result (option string)) :
  In (EvFindLicense d r) (events (main fs a)) ->
  (exists ds, Scanner fs (third_party_dir a) = Ok ds /\ In d ds) /\
  isdir fs (join (third_party_dir a) d) = true /\
  ~ In d ["chromium_build"; "config"; "llvm-build"; "ninja"] /\
  String.prefix "_gclient_" d = false.
Proof.
  intros Hin.
  assert (Hproc : In d (processed (events (main fs a)))).
  { unfold processed. apply in_flat_map.
    exists (EvFindLicense d r). split; [exact Hin | now left]. }
  clear Hin.
  assert (Hel : exists names,
             listdir fs (third_party_dir a) = Ok names /\
             In d (filter (eligible fs (third_party_dir a)) (sorted names))).
  { revert Hproc. run_cases fs a; try (intros []).
    - destruct Hloop as (bs & Hf & _ & -> & _).
      rewrite processed_app, processed_ok, app_nil_r, <- Hf. eauto.
    - destruct Hloop as (bs & Hf & _ & -> & _).
      rewrite processed_app, processed_ok, app_nil_r, <- Hf. eauto.
    - destruct Hloop as (bs & Hf & _ & -> & _).
      rewrite processed_app, processed_ok, app_nil_r, <- Hf. eauto.
    - destruct Hloop as (bs & d' & post & Hf & _ & -> & _).
      rewrite processed_app, processed_ok. intros Hin.
      exists names. split; [reflexivity|]. rewrite Hf.
      apply in_app_or in Hin as [Hin|[<-|[]]]; apply in_or_app;
        [now left | right; now left]. }
  destruct Hel as (names & Hl & Hd). split.
  - exists (filter (eligible fs (third_party_dir a)) (sorted names)).
    split; [now apply Scanner_listdir | exact Hd].
  - apply filter_In in Hd as [_ He]. unfold eligible in He.
    apply andb_true_iff in He as [He Hp]. apply andb_true_iff in He as [Hi Hg].
    apply negb_true_iff in Hp, Hg. split; [exact Hi|]. split; [|exact Hg].
    intros Hm. apply (mem_In d PRUNE_DIRS) in Hm. congruence.
Qed.

Lemma only_eligible_resolved_witness :
  In (EvFindLicense "lss" (Ok (Some "BSD"))) (events (main fs_demo a_demo)) /\
  isdir fs_demo ["third_party"; "ninja"] = true /\
  processed (events (main fs_demo a_demo)) = ["libA"; "lss"].
Proof.
  assert (H : In (EvFindLicense "lss" (Ok (Some "BSD")))
                 (events (main fs_demo a_demo)))
    by (vm_compute; auto).
  split; [exact H|].
  destruct (only_eligible_resolved fs_demo a_demo _ _ H) as [_ _].
  split; reflexivity.
Defined.

(** *** Edges of the resolver *)

(** X7. For a dependency without an override, a library path that is
    missing, is a plain file, or is an empty directory gives "not found":
    the resolver does not raise on it. *)
Theorem nothing_to_search_is_not_found (fs : node) (tp : path)
  (name : string) :
  assoc name SPECIAL_CASES = None ->
  isdir fs (join tp name) = false \/ resolve fs (join tp name) = inr (Dir []) ->
  FindLicense fs tp name = Ok None.
Proof.
  intros Hsp H. unfold FindLicense, walk. rewrite Hsp.
  destruct H as [H|H].
  - unfold isdir in H.
    destruct (resolve fs (join tp name)) as [e|[c|es|t|]];
      try reflexivity; discriminate.
  - now rewrite H.
Qed.

Lemma nothing_to_search_is_not_found_witness :
  FindLicense fs_demo ["third_party"] "absent" = Ok None /\
  FindLicense fs_demo ["third_party"] "README" = Ok None /\
  FindLicense fs_demo ["third_party"] "_gclient_tmp" = Ok None.
Proof.
  split; [|split].
  - apply nothing_to_search_is_not_found; [reflexivity | left; reflexivity].
  - apply nothing_to_search_is_not_found; [reflexivity | left; reflexivity].
  - apply nothing_to_search_is_not_found; [reflexivity | right; reflexivity].
Defined.

Lemma find_exists {A} (f : A -> bool) (l : list A) (x : A) :
  In x l -> f x = true -> exists y, find f l = Some y.
Proof.
  intros Hin Hx. destruct (find f l) as [y|] eqn:E; [eauto|].
  rewrite (find_none _ _ E _ Hin) in Hx. discriminate.
Qed.

(** X8. The walk is top-down: when the directory of a dependency itself
    holds an entry that is no directory and has a recognized name, the
    result of the resolver is that of reading as text such an entry of
    that directory, whatever license files lie deeper in the subtree: the
    text with the line endings turned into line feeds when the entry is
    a file that decodes. *)
Theorem top_level_license_wins (fs : node) (tp : path) (name : string)
  (es : list (string * node)) (f : string) (v : node) :
  wf fs = true ->
  assoc name SPECIAL_CASES = None ->
  resolve fs (join tp name) = inr (Dir es) ->
  In (f, v) es ->
  is_dir_node v = false ->
  In f ["LICENSE"; "LICENSE.md"; "LICENSE.rst"; "COPYING"; "COPYING.txt"] ->
  exists f' v',
    In (f', v') es /\
    is_dir_node v' = false /\
    In f' ["LICENSE"; "LICENSE.md"; "LICENSE.rst"; "COPYING"; "COPYING.txt"] /\
    FindLicense fs tp name
      = (c <- ReadFile fs (join (join tp name) f') ;; Ok (Some c)) /\
    forall c', deref v' = Some (File c') -> ascii_only c' = true ->
      FindLicense fs tp name = Ok (Some (universal_newlines c')).
Proof.
  intros Hwf Hsp Htop Hin Hd Hf.
  assert (Hnd : NoDup (map fst es)).
  { apply (wf_resolve _ _ _ Hwf) in Htop. now apply wf_Dir in Htop. }
  assert (E : FindLicense fs tp name
              = match find IsLicenseFile (filenames es) with
                | Some f' =>
                    c <- ReadFile fs (join (join tp name) f') ;; Ok (Some c)
                | None => find_in_walk fs
                            (flat_map (fun e => walk_node
                                                  (join (join tp name) (fst e))
                                                  (snd e)) es)
                end).
  { unfold FindLicense, walk. rewrite Hsp, Htop.
    cbn [walk_node find_in_walk]. rewrite find_in_files_find.
    now destruct (find IsLicenseFile (filenames es)). }
  destruct (find_exists IsLicenseFile (filenames es) f) as (f' & Hfind).
  { apply In_filenames. eauto. }
  { now apply IsLicenseFile_spec. }
  rewrite Hfind in E.
  apply find_some in Hfind as [Hin' Hl'].
  apply In_filenames in Hin' as (v' & Hv' & Hd').
  exists f', v'. split; [exact Hv'|]. split; [exact Hd'|].
  split; [now apply IsLicenseFile_spec|]. split; [exact E|].
  intros c' Hc' Hasc. rewrite E. unfold ReadFile, read.
  pose proof (resolve_walked fs (Dir es) (join tp name) [] es f' v'
                Htop eq_refl Hnd Hv') as Hres.
  rewrite app_nil_r in Hres. rewrite Hres, resolve_nil, Hc', Hasc.
  reflexivity.
Qed.

Lemma top_level_license_wins_witness :
  resolve fs_demo ["third_party"; "libA"; "src"; "COPYING"]
    = inr (File "inner") /\
  FindLicense fs_demo ["third_party"] "libA" = Ok (Some "MIT").
Proof.
  split; [reflexivity|].
  destruct (top_level_license_wins fs_demo ["third_party"] "libA" _
              "LICENSE" (File "MIT") eq_refl eq_refl eq_refl)
    as (f' & v' & Hin & _ & Hl & _ & Hres).
  - simpl. auto.
  - reflexivity.
  - simpl. auto.
  - simpl in Hin. destruct Hin as [Hin|[Hin|[Hin|[]]]];
      injection Hin as <- <-.
    + simpl in Hl. repeat (destruct Hl as [Hl|Hl]; [discriminate Hl|]).
      destruct Hl.
    + simpl in Hl. repeat (destruct Hl as [Hl|Hl]; [discriminate Hl|]).
      destruct Hl.
    + exact (Hres "MIT" eq_refl eq_refl).
Defined.

(** *** Adding a block *)

Lemma length_append (s t : string) :
  String.length (s ++ t) = String.length s + String.length t.
Proof. induction s as [|c s IH]; simpl; [reflexivity | now rewrite IH]. Qed.

Lemma prefix_nil (t : string) : String.prefix "" t = true.
Proof. now destruct t. Qed.

Lemma prefix_append (s t : string) : String.prefix s (s ++ t) = true.
Proof.
  induction s as [|c s IH]; simpl; [apply prefix_nil|].
  destruct (ascii_dec c c); [assumption | congruence].
Qed.

(** X9. [AddLicenseFile] only appends: the document so far is a prefix
    of the result, the result is never empty, and it is longer by the
    two titles' worth of characters, two line feeds and the text, plus
    the two line feeds of the separator when the document was not
    empty. *)
Theorem AddLicenseFile_extends (license_data name contents : string) :
  String.prefix license_data (AddLicenseFile license_data name contents)
    = true /\
  AddLicenseFile license_data name contents <> "" /\
  String.length (AddLicenseFile license_data name contents)
    = String.length license_data
      + (if String.eqb license_data "" then 0 else 2)
      + 2 * String.length name + 2 + String.length contents.
Proof.
  unfold AddLicenseFile.
  destruct (String.eqb_spec license_data "") as [->|Hne].
  - split; [apply prefix_nil|]. split.
    + intros H. apply append_eq_nil in H as [H _].
      apply append_eq_nil in H as [H _].
      apply append_eq_nil in H as [_ H].
      apply append_eq_nil in H as [_ H]. discriminate.
    + rewrite !length_append, equals_length. simpl. lia.
  - split; [|split].
    + rewrite !append_assoc. apply prefix_append.
    + intros H. repeat (apply append_eq_nil in H as [H _]). contradiction.
    + rewrite !length_append, equals_length. simpl. lia.
Qed.

(** *** The scan and the order of enumeration *)

Import MoreSamples.

Lemma assoc_perm {A} (k : string) (l1 l2 : list (string * A)) :
  NoDup (map fst l1) -> Permutation l1 l2 -> assoc k l1 = assoc k l2.
Proof.
  intros Hnd Hperm.
  assert (Hnd2 : NoDup (map fst l2))
    by exact (Permutation_NoDup (Permutation_map fst Hperm) Hnd).
  destruct (assoc k l1) as [v|] eqn:E.
  - apply assoc_In in E. symmetry. apply (In_assoc _ _ _ Hnd2).
    exact (Permutation_in _ Hperm E).
  - symmetry. apply assoc_None. apply assoc_None in E. intros Hin.
    apply E. exact (Permutation_in _ (Permutation_sym
                                        (Permutation_map fst Hperm)) Hin).
Qed.

Lemma sorted_perm_eq (l1 l2 : list string) :
  NoDup l1 -> Permutation l1 l2 -> sorted l1 = sorted l2.
Proof.
  intros Hnd Hperm. apply ascending_unique; try apply sorted_ascending.
  - exact (Permutation_NoDup (sorted_perm l1) Hnd).
  - exact (Permutation_NoDup (sorted_perm l2)
             (Permutation_NoDup Hperm Hnd)).
  - intros x. rewrite !sorted_In. split; apply Permutation_in;
      [exact Hperm | exact (Permutation_sym Hperm)].
Qed.

(** What the loop does with a name depends on what lies below the
    third-party root only, not on the listing of the root itself. *)
Lemma FindLicense_below (fs fs' : node) (tp : path) (d : string) :
  (forall x q, resolve fs' (tp ++ x :: q)%list
               = resolve fs (tp ++ x :: q)%list) ->
  FindLicense fs' tp d = FindLicense fs tp d.
Proof.
  intros H. unfold FindLicense.
  destruct (assoc d SPECIAL_CASES) as [rel|].
  - unfold ReadFile, read, join. now rewrite (H rel []).
  - assert (Hd : agree_under fs fs' (join tp d)).
    { intros q. unfold join. rewrite <- !app_assoc. apply H. }
    unfold walk. rewrite (agree_under_top _ _ _ Hd).
    destruct (resolve fs (join tp d)) as [e|n]; [reflexivity|].
    apply (find_in_walk_agree fs fs' (join tp d)); [exact Hd|].
    apply walk_node_curdirs.
Qed.

Lemma loop_below (fs fs' : node) (tp : path) (ds : list string) :
  (forall x q, resolve fs' (tp ++ x :: q)%list
               = resolve fs (tp ++ x :: q)%list) ->
  forall acc, loop fs' tp ds acc = loop fs tp ds acc.
Proof.
  intros H. induction ds as [|d ds IH]; intros acc; cbn [loop];
    [reflexivity|].
  assert (Hi : isdir fs' (join tp d) = isdir fs (join tp d))
    by (unfold isdir, join; now rewrite (H d [])).
  rewrite Hi, (FindLicense_below _ _ _ d H).
  destruct (negb (isdir fs (join tp d))); [apply IH|].
  destruct (String.prefix "_gclient_" d); [apply IH|].
  destruct (mem d PRUNE_DIRS); [apply IH|].
  destruct (FindLicense fs tp d) as [x|e]; [|reflexivity].
  destruct (falsy x); [reflexivity|]. now rewrite IH.
Qed.

(** X10. A run does not depend on the order in which the operating
    system enumerates the third-party root: two file systems whose roots
    hold the same entries, listed in any two orders, are listed in two
    orders by [os.listdir], and the loop of [main] over the two sorted
    listings does the same from any document so far: the same calls of
    the resolver with the same results, the same document or the same
    exception. *)
Theorem scan_ignores_enumeration_order (fs1 fs2 : node) (tp : path)
  (es1 es2 : list (string * node)) :
  resolve fs1 tp = inr (Dir es1) ->
  resolve fs2 tp = inr (Dir es2) ->
  NoDup (map fst es1) ->
  Permutation es1 es2 ->
  listdir fs1 tp = Ok (map fst es1) /\
  listdir fs2 tp = Ok (map fst es2) /\
  forall acc,
    loop fs1 tp (sorted (map fst es1)) acc
      = loop fs2 tp (sorted (map fst es2)) acc.
Proof.
  intros H1 H2 Hnd Hperm.
  split; [unfold listdir; now rewrite H1|].
  split; [unfold listdir; now rewrite H2|].
  intros acc.
  rewrite (sorted_perm_eq _ _ Hnd (Permutation_map fst Hperm)).
  symmetry. apply loop_below. intros x q.
  rewrite (resolve_app _ _ _ _ H1), (resolve_app _ _ _ _ H2).
  rewrite !resolve_cons. cbn [deref].
  now rewrite (assoc_perm x _ _ Hnd Hperm).
Qed.

Lemma scan_ignores_enumeration_order_witness :
  listdir fs_demo ["third_party"]
    = Ok ["lss"; "ninja"; "LICENSE.lss"; "_gclient_tmp"; "README"; "libA"] /\
  listdir fs_demo_reversed ["third_party"]
    = Ok ["libA"; "README"; "_gclient_tmp"; "LICENSE.lss"; "ninja"; "lss"] /\
  loop fs_demo ["third_party"]
    (sorted ["lss"; "ninja"; "LICENSE.lss"; "_gclient_tmp"; "README"; "libA"])
    "so far"
  = loop fs_demo_reversed ["third_party"]
      (sorted ["libA"; "README"; "_gclient_tmp"; "LICENSE.lss"; "ninja";
               "lss"])
      "so far".
Proof.
  split; [reflexivity|]. split; [reflexivity|].
  destruct (scan_ignores_enumeration_order fs_demo fs_demo_reversed
              ["third_party"] _ _ eq_refl eq_refl) as (_ & _ & H).
  - apply distinct_NoDup. reflexivity.
  - apply Permutation_rev.
  - exact (H "so far").
Defined.

(** *** The empty document and the empty license of the project *)

(** X11. The document of a successful run is empty exactly when there
    was nothing to aggregate: no license file of the project and no
    scanned dependency.  Any block makes it non-empty. *)
Theorem empty_document_iff (fs : node) (a : args) :
  outcome (main fs a) = Ok tt ->
  (file_at (fs_after (main fs a)) (output_file a) = Some "" <->
   exists_ fs (goma_license a) = false /\
   Scanner fs (third_party_dir a) = Ok []).
Proof.
  intros Hok.
  destruct (main_ok_inv fs a Hok) as (bs & Hs & _ & _ & Hw).
  apply write_read in Hw. unfold file_at. rewrite Hw.
  assert (Hpb : exists_ fs (goma_license a) = false <->
                primary_blocks fs a = []).
  { revert Hok. unfold main.
    destruct (primary fs a) as [c0|e] eqn:Hp; [|discriminate]. intros _.
    pose proof (primary_blocks_exists _ _ _ Hp) as H.
    destruct (exists_ fs (goma_license a)).
    - destruct H as (c & _ & ->). split; discriminate.
    - tauto. }
  rewrite Hpb, Hs. split.
  - intros [= Hdoc]. apply render_doc_empty in Hdoc.
    apply app_eq_nil in Hdoc as [-> ->]. auto.
  - intros [-> Hbs]. injection Hbs as Hbs.
    destruct bs; [reflexivity | discriminate].
Qed.

Lemma empty_document_iff_witness :
  outcome (main fs_nothing a_demo) = Ok tt /\
  file_at (fs_after (main fs_nothing a_demo)) (output_file a_demo) = Some "" /\
  outcome (main fs_demo a_demo) = Ok tt /\
  file_at (fs_after (main fs_demo a_demo)) (output_file a_demo) <> Some "".
Proof.
  split; [reflexivity|]. split.
  - apply (empty_document_iff fs_nothing a_demo eq_refl).
    split; reflexivity.
  - split; [reflexivity|]. intros H.
    apply (empty_document_iff fs_demo a_demo eq_refl) in H.
    destruct H as [H _]. discriminate H.
Defined.

(** X12. Unlike the text of a dependency, the license of the project is
    not tested for emptiness: with an empty license file the run goes on
    and, when it succeeds, the document opens with the block titled
    "Goma Client" with an empty body. *)
Theorem empty_primary_license_accepted (fs fs' : node) (a : args)
  (bs : list block) :
  resolve fs (goma_license a) = inr (File "") ->
  Scanner fs (third_party_dir a) = Ok (map fst bs) ->
  Forall (resolved fs (third_party_dir a)) bs ->
  write fs (output_file a) (render_doc (("Goma Client", "") :: bs))
    = inr fs' ->
  main fs a =
    {| outcome := Ok tt;
       events := (map ok_event bs ++ [EvOpenWrite (output_file a)])%list;
       fs_after := fs' |} /\
  String.prefix ("Goma Client" ++ nl ++ "===========" ++ nl)
    (render_doc (("Goma Client", "") :: bs)) = true.
Proof.
  intros Hlic Hs Hr Hw. split.
  - apply (main_succeeds fs fs' a bs (AddLicenseFile "" GOMA_TITLE ""));
      try assumption.
    + unfold primary, exists_, ReadFile, read. now rewrite Hlic.
    + unfold primary_blocks, ReadFile, read. now rewrite Hlic.
  - unfold render_doc. simpl. destruct (map render_block bs); reflexivity.
Qed.

Lemma empty_primary_license_accepted_witness :
  resolve fs_empty_primary (goma_license a_demo) = inr (File "") /\
  outcome (main fs_empty_primary a_demo) = Ok tt /\
  file_at (fs_after (main fs_empty_primary a_demo)) (output_file a_demo)
    = Some ("Goma Client" ++ nl ++ "===========" ++ nl
              ++ nl ++ nl ++ "libA" ++ nl ++ "====" ++ nl ++ "MIT").
Proof.
  split; [reflexivity|].
  destruct (write fs_empty_primary (output_file a_demo)
              (render_doc [("Goma Client", ""); ("libA", "MIT")]))
    as [e|fs'] eqn:Hw; [discriminate Hw|].
  destruct (empty_primary_license_accepted fs_empty_primary fs' a_demo
              [("libA", "MIT")] eq_refl eq_refl) as [Hrun _].
  - repeat constructor. discriminate.
  - exact Hw.
  - rewrite Hrun. cbn [outcome fs_after]. split; [reflexivity|].
    unfold file_at. now rewrite (write_read _ _ _ _ Hw).
Defined.

(** ** go/build_http_proxy.py: the environment of the build *)

Module BuildHttpProxyFacts.
Import BuildHttpProxy.

Lemma get_pop_same (k : string) (d : dict) : get k (pop k d) = None.
Proof.
  unfold get, pop. induction d as [|[k0 v0] d IH]; simpl; [reflexivity|].
  destruct (String.eqb k k0) eqn:E; simpl; [assumption|]. now rewrite E.
Qed.

Lemma get_pop_other (k k' : string) (d : dict) :
  k' <> k -> get k' (pop k d) = get k' d.
Proof.
  intros Hne. unfold get, pop.
  induction d as [|[k0 v0] d IH]; simpl; [reflexivity|].
  destruct (String.eqb_spec k k0) as [<-|Hk]; simpl.
  - destruct (String.eqb_spec k' k); [contradiction | assumption].
  - destruct (String.eqb k' k0); [reflexivity | assumption].
Qed.

Lemma get_set_same (k v : string) (d : dict) : get k (set k v d) = Some v.
Proof.
  unfold get, set. destruct (assoc k d) as [v0|] eqn:E.
  - exact (assoc_update _ _ _ _ E).
  - exact (assoc_app_new _ _ _ E).
Qed.

Lemma get_set_other (k k' v : string) (d : dict) :
  k' <> k -> get k' (set k v d) = get k' d.
Proof.
  intros Hne. unfold get, set. destruct (assoc k d) as [v0|] eqn:E.
  - now apply assoc_update_other.
  - rewrite assoc_app. destruct (assoc k' d); [reflexivity|]. simpl.
    destruct (String.eqb_spec k' k); [contradiction | reflexivity].
Qed.

Lemma keys_update (k v : string) (d : dict) :
  map fst (update k v d) = map fst d.
Proof.
  induction d as [|[k0 v0] d IH]; simpl; [reflexivity|].
  destruct (String.eqb k k0); simpl; [reflexivity | now rewrite IH].
Qed.

Lemma keys_pop (k : string) (d : dict) :
  map fst (pop k d)
    = filter (fun k0 => negb (String.eqb k k0)) (map fst d).
Proof.
  unfold pop. induction d as [|[k0 v0] d IH]; simpl; [reflexivity|].
  destruct (String.eqb k k0); simpl; now rewrite IH.
Qed.

Lemma NoDup_pop (k : string) (d : dict) :
  NoDup (map fst d) -> NoDup (map fst (pop k d)).
Proof. intros H. rewrite keys_pop. now apply NoDup_filter. Qed.

Lemma NoDup_set (k v : string) (d : dict) :
  NoDup (map fst d) -> NoDup (map fst (set k v d)).
Proof.
  intros H. unfold set. destruct (assoc k d) as [v0|] eqn:E.
  - now rewrite keys_update.
  - rewrite map_app. simpl. apply assoc_None in E.
    apply NoDup_app; [assumption | repeat constructor; intros [] |].
    intros x Hx [<-|[]]. contradiction.
Qed.

(** X13. The environment handed to the compiler has neither GOROOT nor
    GOPATH, has CGO_ENABLED set to 0, GOCACHE to the cache directory and
    GOARCH to the architecture of the command line, whatever the ambient
    environment held for them; every other variable is passed on as it
    is, and no variable occurs twice. *)
Theorem env_sanitized (environ : dict) (a : args) :
  NoDup (map fst environ) ->
  get "GOROOT" (build_env environ a) = None /\
  get "GOPATH" (build_env environ a) = None /\
  get "CGO_ENABLED" (build_env environ a) = Some "0" /\
  get "GOCACHE" (build_env environ a) = Some (cache_dir a) /\
  get "GOARCH" (build_env environ a) = Some (goarch a) /\
  (forall k,
      ~ In k ["GOROOT"; "GOPATH"; "CGO_ENABLED"; "GOCACHE"; "GOARCH"] ->
      get k (build_env environ a) = get k environ) /\
  NoDup (map fst (build_env environ a)).
Proof.
  intros Hnd. unfold build_env. cbn [fold_left].
  repeat split.
  - rewrite !get_set_other by discriminate.
    rewrite get_pop_other by discriminate. apply get_pop_same.
  - rewrite !get_set_other by discriminate. apply get_pop_same.
  - rewrite !get_set_other by discriminate. apply get_set_same.
  - rewrite get_set_other by discriminate. apply get_set_same.
  - apply get_set_same.
  - intros k Hk.
    rewrite !get_set_other, !get_pop_other;
      try reflexivity; intros ->; apply Hk; simpl; tauto.
  - now apply NoDup_set, NoDup_set, NoDup_set, NoDup_pop, NoDup_pop.
Qed.

Lemma env_sanitized_witness :
  NoDup (map fst MoreSamples.environ_demo) /\
  build_env MoreSamples.environ_demo
    {| output := "proxy"; cache_dir := "/tmp/gocache"; goarch := "amd64" |}
  = [("PATH", "/usr/bin"); ("GOARCH", "amd64"); ("HOME", "/home/me");
     ("CGO_ENABLED", "0"); ("GOCACHE", "/tmp/gocache")] /\
  get "GOROOT"
    (build_env MoreSamples.environ_demo
       {| output := "proxy"; cache_dir := "/tmp/gocache";
          goarch := "amd64" |}) = None.
Proof.
  assert (H : NoDup (map fst MoreSamples.environ_demo))
    by (apply OsFacts.distinct_NoDup; reflexivity).
  split; [exact H|]. split; [reflexivity|].
  exact (proj1 (env_sanitized MoreSamples.environ_demo _ H)).
Defined.

End BuildHttpProxyFacts.

(** ** tools/licenses.py: the order of things *)

(** X14. The output file is opened at most once, as the last thing a run
    does, and only after the resolver has been called once on every
    scanned dependency, in scan order, and has found a text that is not
    empty for each. *)
Theorem output_opened_last (fs : node) (a : args) (p : path) :
  In (EvOpenWrite p) (events (main fs a)) ->
  p = output_file a /\
  exists bs,
    Scanner fs (third_party_dir a) = Ok (map fst bs) /\
    Forall (resolved fs (third_party_dir a)) bs /\
    events (main fs a)
      = (map ok_event bs ++ [EvOpenWrite (output_file a)])%list /\
    processed (events (main fs a)) = map fst bs.
Proof.
  assert (Hno : forall bs, ~ In (EvOpenWrite p) (map ok_event bs)).
  { intros bs H. apply In_ok_event in H as (b & _ & H). discriminate. }
  run_cases fs a; try (intros []).
  - destruct Hloop as (bs & Hf & Hr & -> & _). intros Hin.
    apply in_app_or in Hin as [Hin|[Hin|[]]]; [now elim (Hno bs)|].
    injection Hin as <-. split; [reflexivity|]. exists bs.
    rewrite (Scanner_listdir _ _ _ Hlist), Hf, processed_app, processed_ok.
    simpl. rewrite app_nil_r. auto.
  - destruct Hloop as (bs & Hf & Hr & -> & _). intros Hin.
    apply in_app_or in Hin as [Hin|[Hin|[]]]; [now elim (Hno bs)|].
    injection Hin as <-. split; [reflexivity|]. exists bs.
    rewrite (Scanner_listdir _ _ _ Hlist), Hf, processed_app, processed_ok.
    simpl. rewrite app_nil_r. auto.
  - destruct Hloop as (bs & Hf & Hr & -> & _). intros Hin.
    apply in_app_or in Hin as [Hin|[Hin|[]]]; [now elim (Hno bs)|].
    injection Hin as <-. split; [reflexivity|]. exists bs.
    rewrite (Scanner_listdir _ _ _ Hlist), Hf, processed_app, processed_ok.
    simpl. rewrite app_nil_r. auto.
  - destruct Hloop as (bs & d & post & _ & _ & -> & _). intros Hin.
    apply in_app_or in Hin as [Hin|[Hin|[]]]; [now elim (Hno bs)|].
    discriminate.
Qed.

Lemma output_opened_last_witness :
  In (EvOpenWrite ["out.txt"]) (events (main fs_demo a_demo)) /\
  processed (events (main fs_demo a_demo)) = ["libA"; "lss"] /\
  Scanner fs_demo ["third_party"] = Ok ["libA"; "lss"].
Proof.
  assert (H : In (EvOpenWrite ["out.txt"]) (events (main fs_demo a_demo)))
    by (vm_compute; auto).
  split; [exact H|].
  destruct (output_opened_last fs_demo a_demo _ H)
    as (_ & bs & Hs & _ & _ & Hp).
  split; reflexivity.
Defined.




